(** * National Git MVP: provisioning and push logging (app/main.py)

    A shallow embedding of the FastAPI service in [app/main.py]: the name
    validator [safe_name], the hook installer [write_post_receive_hook],
    the three endpoints [create_repo], [list_repos], [get_push_log], and
    the bash hook the installer writes.

    Conventions of the model.
    - A Python [str] is a list of Unicode code points ([list N]); [py]
      turns an ASCII literal into one.
    - A [pathlib] path is the list of its components below the filesystem
      root; the filesystem is a finite map from paths to nodes.  Files hold
      bytes: [write_text] encodes to UTF-8, [read_text] decodes and reads
      with universal newlines, and the hook works on bytes throughout.
    - Effects are threaded through a small state-and-exception monad over
      a [World] (filesystem plus the log of attempted mutating calls).
    - The version-control engine ([git init --bare]), the umask of the
      server process and the installation directory are fields of a
      [Host]; theorems quantify over every host unless they say otherwise. *)

From Stdlib Require Import NArith Ascii String ZifyBool.
From stdpp Require Import gmap list.

Local Open Scope N_scope.

(** ** Python strings *)

Abbreviation str := (list N).

Definition py (s : string) : str :=
  (fun a => N_of_ascii a) <$> list_ascii_of_string s.

Arguments py : simpl never.

Definition ch_slash : N := 47.
Definition ch_backslash : N := 92.
Definition ch_dot : N := 46.
Definition ch_dquote : N := 34.
Definition ch_newline : N := 10.
Definition ch_space : N := 32.
Definition ch_tab : N := 9.

(** [str.isspace] on one code point: the table behind
    [_PyUnicode_IsWhitespace], which [str.strip()] consults. *)
Definition is_space (c : N) : bool :=
  ((0x09 <=? c) && (c <=? 0x0D)) || ((0x1C <=? c) && (c <=? 0x20))
  || (c =? 0x85) || (c =? 0xA0) || (c =? 0x1680)
  || ((0x2000 <=? c) && (c <=? 0x200A))
  || (c =? 0x2028) || (c =? 0x2029) || (c =? 0x202F)
  || (c =? 0x205F) || (c =? 0x3000).

Fixpoint lstrip (s : str) : str :=
  match s with
  | c :: s' => if is_space c then lstrip s' else s
  | [] => []
  end.

Definition rstrip (s : str) : str := reverse (lstrip (reverse s)).

(** [s.strip()] *)
Definition strip (s : str) : str := rstrip (lstrip s).

Fixpoint starts_with (pre s : str) : bool :=
  match pre, s with
  | [], _ => true
  | a :: pre', b :: s' => (a =? b) && starts_with pre' s'
  | _ :: _, [] => false
  end.

(** [sub in s] for two strings. *)
Fixpoint str_in (sub s : str) : bool :=
  starts_with sub s ||
  match s with
  | [] => false
  | _ :: s' => str_in sub s'
  end.

(** ** Exceptions and results *)

(** [UnicodeDecodeError] and [UnicodeEncodeError] are [ValueError]s in
    Python; they get constructors of their own because they arise in
    [read_text] and [write_text] only, which no [try] of the service
    encloses. *)
Inductive exn :=
| ValueError (msg : str)
| HTTPException (status_code : N) (detail : str)
| CalledProcessError
| OSError
| UnicodeDecodeError
| UnicodeEncodeError.

#[export] Instance exn_eq_dec : EqDecision exn.
Proof. solve_decision. Defined.

Inductive result (A : Type) :=
| Ok (a : A)
| Raise (e : exn).
Arguments Ok {A} a.
Arguments Raise {A} e.

#[export] Instance result_eq_dec `{EqDecision A} : EqDecision (result A).
Proof. solve_decision. Defined.

Definition is_Ok {A} (r : result A) : Prop := ∃ a, r = Ok a.
Definition is_Raise {A} (r : result A) : Prop := ∃ e, r = Raise e.

(** ** Text and bytes: the [utf-8] codec and universal newlines *)

(** The bytes of one code point; surrogates and values above U+10FFFF have
    none ([UnicodeEncodeError]). *)
Definition utf8_encode_char (c : N) : option (list N) :=
  if c <? 0x80 then Some [c]
  else if c <? 0x800 then Some [0xC0 + c / 64; 0x80 + c mod 64]
  else if c <? 0x10000 then
    if (0xD800 <=? c) && (c <=? 0xDFFF) then None
    else Some [0xE0 + c / 4096; 0x80 + (c / 64) mod 64; 0x80 + c mod 64]
  else if c <=? 0x10FFFF then
    Some [0xF0 + c / 262144; 0x80 + (c / 4096) mod 64;
          0x80 + (c / 64) mod 64; 0x80 + c mod 64]
  else None.

(** [s.encode("utf-8")] *)
Fixpoint utf8_encode (s : str) : option (list N) :=
  match s with
  | [] => Some []
  | c :: s' =>
      match utf8_encode_char c, utf8_encode s' with
      | Some b, Some bs => Some (b ++ bs)
      | _, _ => None
      end
  end.

Definition is_cont (b : N) : bool := (0x80 <=? b) && (b <=? 0xBF).

(** The second byte a lead byte admits: what keeps out overlong forms,
    surrogates and values above U+10FFFF. *)
Definition second_ok (b0 b1 : N) : bool :=
  if b0 =? 0xE0 then (0xA0 <=? b1) && (b1 <=? 0xBF)
  else if b0 =? 0xED then (0x80 <=? b1) && (b1 <=? 0x9F)
  else if b0 =? 0xF0 then (0x90 <=? b1) && (b1 <=? 0xBF)
  else if b0 =? 0xF4 then (0x80 <=? b1) && (b1 <=? 0x8F)
  else is_cont b1.

(** [bs.decode("utf-8")], strict: [None] is [UnicodeDecodeError]. *)
Fixpoint utf8_decode (bs : list N) : option str :=
  match bs with
  | [] => Some []
  | b0 :: r0 =>
      if b0 <? 0x80 then cons b0 <$> utf8_decode r0
      else if (0xC2 <=? b0) && (b0 <=? 0xDF) then
        match r0 with
        | b1 :: r1 =>
            if is_cont b1
            then cons ((b0 - 0xC0) * 64 + (b1 - 0x80)) <$> utf8_decode r1
            else None
        | _ => None
        end
      else if (0xE0 <=? b0) && (b0 <=? 0xEF) then
        match r0 with
        | b1 :: b2 :: r2 =>
            if second_ok b0 b1 && is_cont b2
            then cons ((b0 - 0xE0) * 4096 + (b1 - 0x80) * 64 + (b2 - 0x80))
                   <$> utf8_decode r2
            else None
        | _ => None
        end
      else if (0xF0 <=? b0) && (b0 <=? 0xF4) then
        match r0 with
        | b1 :: b2 :: b3 :: r3 =>
            if second_ok b0 b1 && is_cont b2 && is_cont b3
            then cons ((b0 - 0xF0) * 262144 + (b1 - 0x80) * 4096
                       + (b2 - 0x80) * 64 + (b3 - 0x80))
                   <$> utf8_decode r3
            else None
        | _ => None
        end
      else None
  end.

Definition ch_return : N := 13.

(** Reading in text mode with [newline=None]: a carriage return, alone or
    followed by a line feed, is read as one line feed. *)
Fixpoint universal_newlines (s : str) : str :=
  match s with
  | [] => []
  | c :: rest =>
      if c =? ch_return then
        match rest with
        | d :: rest' =>
            if d =? ch_newline then ch_newline :: universal_newlines rest'
            else ch_newline :: universal_newlines rest
        | [] => [ch_newline]
        end
      else c :: universal_newlines rest
  end.

(** The length of a name on disk, in bytes. *)
Definition utf8_width (c : N) : nat :=
  if c <? 0x80 then 1%nat else if c <? 0x800 then 2%nat
  else if c <? 0x10000 then 3%nat else 4%nat.

Definition name_bytes (s : str) : nat := sum_list (utf8_width <$> s).

(** The longest name a directory entry can have ([NAME_MAX] on Linux). *)
Definition NAME_MAX : nat := 255.

(** [ENAMETOOLONG] *)
Definition too_long (name : str) : bool := bool_decide (NAME_MAX < name_bytes name)%nat.

(** ** NameValidator: [safe_name] *)

Definition allowed : gset N :=
  list_to_set
    (py "abcdefghijklmnopqrstuvwxyzABCDEFGHIJKLMNOPQRSTUVWXYZ0123456789-_.").

Definition safe_name (s : str) : result str :=
  let s := strip s in
  if bool_decide (s = []) then
    Raise (ValueError (py "Empty name not allowed"))
  else if str_in [ch_slash] s || str_in [ch_backslash] s
          || str_in [ch_dot; ch_dot] s then
    Raise (ValueError (py "Invalid name"))
  else if existsb (fun ch => negb (bool_decide (ch ∈ allowed))) s then
    Raise (ValueError (py "Only letters, numbers, '-', '_', '.' are allowed"))
  else Ok s.

(** The character class [[A-Za-z0-9._-]] of the specification. *)
Definition allow_listed (c : N) : bool :=
  ((0x61 <=? c) && (c <=? 0x7A)) || ((0x41 <=? c) && (c <=? 0x5A))
  || ((0x30 <=? c) && (c <=? 0x39))
  || (c =? 0x2E) || (c =? 0x5F) || (c =? 0x2D).

(** [sub] occurs in [s] as a contiguous run. *)
Definition occurs_in (sub s : str) : Prop := ∃ a b, s = a ++ sub ++ b.

(** ** Paths ([pathlib.PurePosixPath]) *)

Abbreviation path := (list (list N)).

Fixpoint split_on (sep : N) (s : str) : list str :=
  match s with
  | [] => [[]]
  | c :: s' =>
      if c =? sep then [] :: split_on sep s'
      else match split_on sep s' with
           | w :: ws => (c :: w) :: ws
           | [] => [[c]]
           end
  end.

(** Parsing of one operand of [/]: the text is cut at every "/", and empty
    components and single dots are dropped ("spurious slashes and single
    dots are collapsed"; ".." is kept). *)
Definition parse_parts (s : str) : path :=
  filter (fun c => c ≠ [] ∧ c ≠ [ch_dot]) (split_on ch_slash s).

(** [p / seg]: an absolute operand replaces [p]. *)
Definition joinpath (p : path) (seg : str) : path :=
  if starts_with [ch_slash] seg then parse_parts seg else p ++ parse_parts seg.

Infix "//" := joinpath (at level 40, left associativity).

(** [p.name], [p.parent], [p.stem], [str(p)] *)
Definition path_name (p : path) : str := default [] (last p).

Definition path_parent (p : path) : path := take (length p - 1)%nat p.

Fixpoint rfind (c : N) (s : str) : option nat :=
  match s with
  | [] => None
  | d :: s' =>
      match rfind c s' with
      | Some i => Some (S i)
      | None => if d =? c then Some 0%nat else None
      end
  end.

Definition path_stem (p : path) : str :=
  let name := path_name p in
  match rfind ch_dot name with
  | Some i =>
      if bool_decide (0 < i ∧ i < length name - 1)%nat then take i name else name
  | None => name
  end.

Definition path_str (p : path) : str :=
  match p with
  | [] => [ch_slash]
  | _ => concat ((fun c => ch_slash :: c) <$> p)
  end.

Definition ends_with (suf s : str) : bool :=
  starts_with (reverse suf) (reverse s).

(** [q] lies strictly below [root]. *)
Definition is_below (root q : path) : bool :=
  bool_decide (take (length root) q = root) && bool_decide (length root < length q)%nat.

(** ** The filesystem and the world

    The disk is a finite map from paths to nodes. It stands for a tree: an
    entry's ancestors are directories. On such a map the calls below do
    what their Python counterparts do; the root directory itself is not an
    entry and always exists. A file holds bytes. Of the ways a call can
    fail, the model has those that depend on the names and on what is on
    disk; permissions, owners and a full disk are not part of it. *)

Inductive node :=
| Dir
| File (mode : N) (data : list N).

#[export] Instance node_eq_dec : EqDecision node.
Proof. solve_decision. Defined.

(** The mutating calls the service attempts, logged in order whether they
    succeed or not. *)
Inductive call :=
| CMkdir (p : path)
| CGitInit (p : path)
| COpenW (p : path)
| CWrite (p : path) (data : list N)
| CChmod (p : path) (mode : N).

#[export] Instance call_eq_dec : EqDecision call.
Proof. solve_decision. Defined.

Record World := mkWorld {
  fs : gmap path node;
  calls : list call;
}.

#[export] Instance World_eq_dec : EqDecision World.
Proof. solve_decision. Defined.

Record Host := mkHost {
  (** [Path(__file__).resolve().parent.parent] *)
  APP_ROOT : path;
  (** file-creation mask of the server process *)
  umask : N;
  (** whether [Path.exists()] lets [ENAMETOOLONG] through, as it does
      before Python 3.13, or answers [False], as it does from 3.13 on *)
  exists_reraises : bool;
  (** [git init --bare <p>]: whether it exited with status 0, and the
      filesystem it leaves *)
  git_init_bare : path → gmap path node → bool * gmap path node;
}.

Definition REPO_ROOT (h : Host) : path := APP_ROOT h // py "repos".

(** ** The monad: state passing with exceptions *)

Definition M (A : Type) : Type := World → result A * World.

Definition ret {A} (a : A) : M A := fun w => (Ok a, w).
Definition raise {A} (e : exn) : M A := fun w => (Raise e, w).

Definition bind {A B} (m : M A) (k : A → M B) : M B :=
  fun w => match m w with
           | (Ok a, w') => k a w'
           | (Raise e, w') => (Raise e, w')
           end.

(** [try: m except ValueError as e: handler(str(e))] *)
Definition except_ValueError {A} (m : M A) (handler : str → M A) : M A :=
  fun w => match m w with
           | (Raise (ValueError msg), w') => handler msg w'
           | r => r
           end.

Definition lift {A} (r : result A) : M A := fun w => (r, w).

#[export] Instance M_ret : MRet M := @ret.
#[export] Instance M_bind : MBind M := fun A B k m => bind m k.

Definition logged (c : call) : M unit :=
  fun w => (Ok tt, mkWorld (fs w) (calls w ++ [c])).

Definition get_fs : M (gmap path node) := fun w => (Ok (fs w), w).
Definition put_fs (f : gmap path node) : M unit :=
  fun w => (Ok tt, mkWorld f (calls w)).

(** ** Filesystem calls *)

(** Whether [stat] fails with [ENAMETOOLONG] on a path that is not there.
    The path is walked from the root: below a file nothing is looked up
    ([ENOTDIR]), and at the first component that is missing the answer is
    [ENOENT] unless its name is too long. *)
Fixpoint stat_too_long (done : path) (todo : path) (f : gmap path node) : bool :=
  match todo with
  | [] => false
  | c :: todo' =>
      let q := done ++ [c] in
      match f !! q with
      | Some Dir => stat_too_long q todo' f
      | Some (File _ _) => false
      | None => too_long c
      end
  end.

(** [p.exists()]: [ENOENT] and [ENOTDIR] are answered with [False]. *)
Definition path_exists (h : Host) (p : path) : M bool :=
  f ← get_fs;
  if bool_decide (is_Some (f !! p)) then mret true
  else if exists_reraises h && stat_too_long [] p f then raise OSError
  else mret false.

(** Directory creation along [p], outermost component first: a component
    that is a file stops it ([NotADirectoryError], [FileExistsError]), a
    missing one is created unless its name is too long, an existing
    directory is passed over. *)
Fixpoint mkdir_from (done : path) (todo : path) (f : gmap path node)
  : option (gmap path node) :=
  match todo with
  | [] => Some f
  | c :: todo' =>
      let q := done ++ [c] in
      match f !! q with
      | Some Dir => mkdir_from q todo' f
      | Some (File _ _) => None
      | None => if too_long c then None else mkdir_from q todo' (<[q := Dir]> f)
      end
  end.

(** What directory creation leaves on disk when it stops: the directories
    created before the component it stopped at. *)
Fixpoint mkdir_stops (done : path) (todo : path) (f : gmap path node)
  : gmap path node :=
  match todo with
  | [] => f
  | c :: todo' =>
      let q := done ++ [c] in
      match f !! q with
      | Some Dir => mkdir_stops q todo' f
      | Some (File _ _) => f
      | None => if too_long c then f else mkdir_stops q todo' (<[q := Dir]> f)
      end
  end.

(** [p.mkdir(parents=True, exist_ok=True)] *)
Definition mkdir_parents (p : path) : M unit :=
  logged (CMkdir p);;
  f ← get_fs;
  match mkdir_from [] p f with
  | Some f' => put_fs f'
  | None => put_fs (mkdir_stops [] p f);; raise OSError
  end.

(** [p.is_dir()] *)
Definition is_dir (f : gmap path node) (p : path) : bool :=
  match p with
  | [] => true
  | _ => bool_decide (f !! p = Some Dir)
  end.

(** [open(p, "w")]: creates the file with mode [0o666 & ~umask], or
    truncates it keeping its mode. The service opens one file this way,
    [post-receive], so the length of the name is not looked at. *)
Definition open_w (h : Host) (p : path) : M unit :=
  logged (COpenW p);;
  f ← get_fs;
  if is_dir f (path_parent p) then
    match f !! p with
    | Some Dir => raise OSError
    | Some (File m _) => put_fs (<[p := File m []]> f)
    | None => put_fs (<[p := File (N.ldiff 0x1B6 (umask h)) []]> f)
    end
  else raise OSError.

(** The bytes reaching the file at the flush. *)
Definition write (p : path) (data : list N) : M unit :=
  logged (CWrite p data);;
  f ← get_fs;
  match f !! p with
  | Some (File m d) => put_fs (<[p := File m (d ++ data)]> f)
  | _ => raise OSError
  end.

(** [f.write(data)] on the text file just opened, and its close: the text
    is encoded, then written. *)
Definition write_str (p : path) (data : str) : M unit :=
  match utf8_encode data with
  | Some bytes => write p bytes
  | None => raise UnicodeEncodeError
  end.

(** [p.write_text(data, encoding="utf-8")] *)
Definition write_text (h : Host) (p : path) (data : str) : M unit :=
  open_w h p;; write_str p data.

(** [os.chmod(p, mode)]; the mode of a directory is not part of the model. *)
Definition chmod (p : path) (mode : N) : M unit :=
  logged (CChmod p mode);;
  f ← get_fs;
  match f !! p with
  | Some (File _ d) => put_fs (<[p := File mode d]> f)
  | Some Dir => mret tt
  | None => raise OSError
  end.

(** [p.read_text(encoding="utf-8")]: the bytes are decoded, and the text
    is read with universal newlines. *)
Definition read_text (p : path) : M str :=
  f ← get_fs;
  match f !! p with
  | Some (File _ d) =>
      match utf8_decode d with
      | Some text => mret (universal_newlines text)
      | None => raise UnicodeDecodeError
      end
  | _ => raise OSError
  end.

(** [root.rglob("*" + suffix)]: every entry below [root], at any depth,
    whose name ends with [suffix]. *)
Definition rglob (root : path) (suffix : str) : M (list path) :=
  f ← get_fs;
  mret (filter (fun q => is_below root q && ends_with suffix (path_name q))
               (map_to_list f).*1).

(** [subprocess.run(["git", "init", "--bare", str(p)], check=True)] *)
Definition run_git_init_bare (h : Host) (p : path) : M unit :=
  logged (CGitInit p);;
  f ← get_fs;
  let '(ok, f') := git_init_bare h p f in
  put_fs f';;
  if ok then mret tt else raise CalledProcessError.

(** ** HookInstaller: [write_post_receive_hook] *)

Definition quoted (s : str) : str := ch_dquote :: s ++ [ch_dquote].

Definition unlines (ls : list str) : str :=
  concat ((fun l => l ++ [ch_newline]) <$> ls).

(** The text between the triple quotes, line by line. *)
Definition hook_content : str :=
  unlines
    [ py "#!/usr/bin/env bash";
      py "set -euo pipefail";
      [];
      py "REPO_DIR=" ++ quoted (py "$(pwd)");
      py "LOG_FILE=" ++ quoted (py "$REPO_DIR/push.log");
      py "PUSHER=" ++ quoted (py "${PUSHER_NAME:-unknown}");
      [];
      py "TS=" ++ quoted (py "$(date -u +" ++ quoted (py "%Y-%m-%dT%H:%M:%SZ") ++ py ")");
      [];
      py "{";
      py "  echo " ++ quoted (py "=== PUSH ===");
      py "  echo " ++ quoted (py "time_utc=$TS");
      py "  echo " ++ quoted (py "pusher=$PUSHER");
      py "  echo " ++ quoted (py "repo=$REPO_DIR");
      py "  echo " ++ quoted (py "updates:");
      py "  while read -r oldrev newrev refname; do";
      py "    echo " ++ quoted (py "  $refname $oldrev -> $newrev");
      py "  done";
      py "  echo";
      py "} >> " ++ quoted (py "$LOG_FILE") ].

Arguments hook_content : simpl never.

(** [0o755] *)
Definition mode_rwxr_xr_x : N := 0x1ED.

Definition write_post_receive_hook (h : Host) (repo_dir : path) : M unit :=
  let hooks_dir := repo_dir // py "hooks" in
  mkdir_parents hooks_dir;;
  let hook_path := hooks_dir // py "post-receive" in
  write_text h hook_path hook_content;;
  chmod hook_path mode_rwxr_xr_x.

(** ** The endpoints *)

Module RepoCreate.
Record t := mk { org : str; name : str }.
#[global] Instance eq_dec : EqDecision t.
Proof. solve_decision. Defined.
End RepoCreate.

Module Repo.
Record t := mk { org : str; name : str; path : str; clone_url_file : str }.
#[global] Instance eq_dec : EqDecision t.
Proof. solve_decision. Defined.
End Repo.

Module PushLog.
Record t := mk { org : str; name : str; pushes : str; note : option str }.
#[global] Instance eq_dec : EqDecision t.
Proof. solve_decision. Defined.
End PushLog.

(** [POST /repos] *)
Definition create_repo (h : Host) (body : RepoCreate.t) : M Repo.t :=
  '(org, name) ←
    except_ValueError
      (org ← lift (safe_name (RepoCreate.org body));
       name ← lift (safe_name (RepoCreate.name body));
       mret (org, name))
      (fun msg => raise (HTTPException 400 msg));
  let repo_dir := REPO_ROOT h // org // (name ++ py ".git") in
  present ← path_exists h repo_dir;
  if present : bool then raise (HTTPException 409 (py "Repo already exists")) else
  mkdir_parents (path_parent repo_dir);;
  run_git_init_bare h repo_dir;;
  write_post_receive_hook h repo_dir;;
  mret (Repo.mk org name (path_str repo_dir) (py "file://" ++ path_str repo_dir)).

(** [GET /repos] *)
Definition list_repos (h : Host) : M (list Repo.t) :=
  ps ← rglob (REPO_ROOT h) (py ".git");
  mret ((fun p =>
           let org := path_name (path_parent p) in
           let name := path_stem p in
           Repo.mk org name (path_str p) (py "file://" ++ path_str p)) <$> ps).

(** [GET /repos/{org}/{name}/pushlog] *)
Definition get_push_log (h : Host) (org name : str) : M PushLog.t :=
  '(org, name) ←
    except_ValueError
      (org ← lift (safe_name org);
       name ← lift (safe_name name);
       mret (org, name))
      (fun msg => raise (HTTPException 400 msg));
  let repo_dir := REPO_ROOT h // org // (name ++ py ".git") in
  present ← path_exists h repo_dir;
  if negb present then raise (HTTPException 404 (py "Repo not found")) else
  let log_path := repo_dir // py "push.log" in
  logged_before ← path_exists h log_path;
  if negb logged_before then
    mret (PushLog.mk org name [] (Some (py "No pushes logged yet")))
  else
    pushes ← read_text log_path;
    mret (PushLog.mk org name pushes None).

(** ** The statements of [create_repo] as steps

    One step per filesystem call, so that the worlds between two calls,
    which another request or a push can observe, are states of the model. *)

Inductive pc :=
| AtValidate (body : RepoCreate.t)
| AtExists (org name : str)
| AtMkdirParent (org name : str)
| AtGitInit (org name : str)
| AtHookMkdir (org name : str)
| AtHookOpen (org name : str)
| AtHookWrite (org name : str)
| AtHookChmod (org name : str)
| Finished (r : result Repo.t).

#[export] Instance pc_eq_dec : EqDecision pc.
Proof. solve_decision. Defined.

Definition advance {A} (m : M A) (next : A → pc) : World → pc * World :=
  fun w => match m w with
           | (Ok a, w') => (next a, w')
           | (Raise e, w') => (Finished (Raise e), w')
           end.

Definition step (h : Host) (c : pc) : World → pc * World :=
  match c with
  | AtValidate body =>
      advance
        (except_ValueError
           (org ← lift (safe_name (RepoCreate.org body));
            name ← lift (safe_name (RepoCreate.name body));
            mret (org, name))
           (fun msg => raise (HTTPException 400 msg)))
        (fun on => AtExists on.1 on.2)
  | AtExists org name =>
      advance (path_exists h (REPO_ROOT h // org // (name ++ py ".git")))
        (fun present : bool =>
           if present
           then Finished (Raise (HTTPException 409 (py "Repo already exists")))
           else AtMkdirParent org name)
  | AtMkdirParent org name =>
      advance (mkdir_parents (path_parent (REPO_ROOT h // org // (name ++ py ".git"))))
        (fun _ => AtGitInit org name)
  | AtGitInit org name =>
      advance (run_git_init_bare h (REPO_ROOT h // org // (name ++ py ".git")))
        (fun _ => AtHookMkdir org name)
  | AtHookMkdir org name =>
      advance (mkdir_parents (REPO_ROOT h // org // (name ++ py ".git") // py "hooks"))
        (fun _ => AtHookOpen org name)
  | AtHookOpen org name =>
      advance
        (open_w h (REPO_ROOT h // org // (name ++ py ".git") // py "hooks" // py "post-receive"))
        (fun _ => AtHookWrite org name)
  | AtHookWrite org name =>
      advance
        (write_str
           (REPO_ROOT h // org // (name ++ py ".git") // py "hooks" // py "post-receive")
           hook_content)
        (fun _ => AtHookChmod org name)
  | AtHookChmod org name =>
      advance
        (chmod (REPO_ROOT h // org // (name ++ py ".git") // py "hooks" // py "post-receive")
           mode_rwxr_xr_x)
        (fun _ =>
           let repo_dir := REPO_ROOT h // org // (name ++ py ".git") in
           Finished (Ok (Repo.mk org name (path_str repo_dir)
                           (py "file://" ++ path_str repo_dir))))
  | Finished r => fun w => (Finished r, w)
  end.

Fixpoint steps (h : Host) (n : nat) (c : pc) (w : World) : pc * World :=
  match n with
  | O => (c, w)
  | S n' => let '(c', w') := step h c w in steps h n' c' w'
  end.

Arguments steps : simpl never.

(** Two requests in flight: the schedule says whose statement runs next
    ([true] the first request, [false] the second). *)
Fixpoint interleave (h : Host) (sched : list bool) (a b : pc) (w : World)
  : pc * pc * World :=
  match sched with
  | [] => (a, b, w)
  | true :: sched' => let '(a', w') := step h a w in interleave h sched' a' b w'
  | false :: sched' => let '(b', w') := step h b w in interleave h sched' a b' w'
  end.

(** ** The installed hook (the bash script in [hook_content])

    The hook is a process of its own and works on bytes: the variable, the
    date and the input are byte strings, and what it appends to the log are
    bytes. So is its working directory, which for ASCII names is the path
    as the service has it. *)

Record HookEnv := mkHookEnv {
  (** working directory of the hook process: the repository *)
  hook_cwd : path;
  (** the environment variable, when set *)
  PUSHER_NAME : option str;
  (** output of [date -u +"%Y-%m-%dT%H:%M:%SZ"] *)
  date_utc : str;
}.

(** The default [IFS]: space, tab, newline. *)
Definition is_ifs (c : N) : bool :=
  (c =? ch_space) || (c =? ch_tab) || (c =? ch_newline).

Fixpoint skip_ifs (s : str) : str :=
  match s with
  | c :: s' => if is_ifs c then skip_ifs s' else s
  | [] => []
  end.

(** The next word and what follows it. *)
Fixpoint take_word (s : str) : str * str :=
  match s with
  | c :: s' =>
      if is_ifs c then ([], s)
      else let '(w, r) := take_word s' in (c :: w, r)
  | [] => ([], [])
  end.

(** [read -r oldrev newrev refname] on one line: the first two words, and
    the rest of the line without the blanks around it. *)
Definition read_r3 (line : str) : str * str * str :=
  let '(oldrev, r1) := take_word (skip_ifs line) in
  let '(newrev, r2) := take_word (skip_ifs r1) in
  let refname := reverse (skip_ifs (reverse (skip_ifs r2))) in
  (oldrev, newrev, refname).

(** The lines [read] returns with status 0: those ended by a newline. Text
    after the last newline makes [read] fail and ends the loop. *)
Fixpoint complete_lines (input : str) : list str :=
  match input with
  | [] => []
  | c :: rest =>
      if c =? ch_newline then [] :: complete_lines rest
      else match complete_lines rest with
           | l :: ls => (c :: l) :: ls
           | [] => []
           end
  end.

(** [echo "<text>"] *)
Definition echo (text : str) : str := text ++ [ch_newline].

(** [${v:-word}]: the value when set and not empty. *)
Definition param_default (v : option str) (word : str) : str :=
  match v with
  | Some (c :: s) => c :: s
  | _ => word
  end.

(** Standard output of the brace group. *)
Definition hook_output (e : HookEnv) (stdin : str) : str :=
  let REPO_DIR := path_str (hook_cwd e) in
  let PUSHER := param_default (PUSHER_NAME e) (py "unknown") in
  let TS := date_utc e in
  echo (py "=== PUSH ===")
  ++ echo (py "time_utc=" ++ TS)
  ++ echo (py "pusher=" ++ PUSHER)
  ++ echo (py "repo=" ++ REPO_DIR)
  ++ echo (py "updates:")
  ++ concat ((fun line =>
                let '(oldrev, newrev, refname) := read_r3 line in
                echo (py "  " ++ refname ++ py " " ++ oldrev ++ py " -> " ++ newrev))
             <$> complete_lines stdin)
  ++ echo [].

(** One run of the hook: the output is appended to [$REPO_DIR/push.log];
    [None] is a non-zero exit. [um] is the umask of the hook process. *)
Definition post_receive (um : N) (e : HookEnv) (stdin : str) (f : gmap path node)
  : option (gmap path node) :=
  let log_file := hook_cwd e ++ [py "push.log"] in
  match f !! log_file with
  | Some (File m d) => Some (<[log_file := File m (d ++ hook_output e stdin)]> f)
  | Some Dir => None
  | None =>
      if is_dir f (hook_cwd e)
      then Some (<[log_file := File (N.ldiff 0x1B6 um) (hook_output e stdin)]> f)
      else None
  end.

(** What the engine sends for a list of ref updates: one line
    [<old> SP <new> SP <ref> LF] each. *)
Definition ref_update_line (t : str * str * str) : str :=
  let '(oldrev, newrev, refname) := t in
  oldrev ++ py " " ++ newrev ++ py " " ++ refname ++ [ch_newline].

Definition ref_updates_stdin (ts : list (str * str * str)) : str :=
  concat (ref_update_line <$> ts).





(** ** Observations on the filesystem *)

(** The owner may execute. *)
Definition executable (mode : N) : bool := N.testbit mode 6.

(** The engine's test for a repository directory: a [HEAD] file and the
    [objects] and [refs] directories. *)
Definition is_bare_repository (f : gmap path node) (p : path) : bool :=
  match f !! (p ++ [py "HEAD"]) with
  | Some (File _ _) => is_dir f (p ++ [py "objects"]) && is_dir f (p ++ [py "refs"])
  | _ => false
  end.

(** The repository directories there are. *)
Definition repositories_on_disk (f : gmap path node) : list path :=
  filter (fun q => is_bare_repository f q) (map_to_list f).*1.

Definition hook_path_of (repo_dir : path) : path :=
  repo_dir ++ [py "hooks"; py "post-receive"].

Definition hook_absent (f : gmap path node) (repo_dir : path) : Prop :=
  f !! hook_path_of repo_dir = None.

Definition hook_installed (f : gmap path node) (repo_dir : path) : Prop :=
  ∃ m, f !! hook_path_of repo_dir = Some (File m hook_content) ∧ executable m = true.

(** ** A stock engine and host for the worked examples *)

Definition mode_rw_r__r__ : N := 0x1A4.

(** What [git init --bare] puts into an empty directory. *)
Definition bare_template : list (path * node) :=
  [ ([py "HEAD"], File mode_rw_r__r__ (py "ref: refs/heads/master" ++ [ch_newline]));
    ([py "config"], File mode_rw_r__r__ (py "[core]" ++ [ch_newline; ch_tab] ++ py "bare = true" ++ [ch_newline]));
    ([py "description"], File mode_rw_r__r__ (py "Unnamed repository" ++ [ch_newline]));
    ([py "hooks"], Dir);
    ([py "info"], Dir);
    ([py "info"; py "exclude"], File mode_rw_r__r__ []);
    ([py "objects"], Dir);
    ([py "objects"; py "info"], Dir);
    ([py "objects"; py "pack"], Dir);
    ([py "refs"], Dir);
    ([py "refs"; py "heads"], Dir);
    ([py "refs"; py "tags"], Dir) ].

(** The engine creates the directory and fills in what is missing; on a
    directory that is a repository already it re-initialises and exits 0.
    It fails when something in the way keeps the result from being a
    repository. *)
Definition stock_git_init_bare (p : path) (f : gmap path node) : bool * gmap path node :=
  match mkdir_from [] p f with
  | None => (false, f)
  | Some f' =>
      let f'' :=
        foldl (fun acc e =>
                 match acc !! (p ++ e.1) with
                 | Some _ => acc
                 | None => <[p ++ e.1 := e.2]> acc
                 end) f' bare_template in
      (is_bare_repository f'' p, f'')
  end.


Definition stock_host : Host :=
  mkHost [py "srv"; py "app"] 0x12 true stock_git_init_bare.

(** The world once the module is imported:
    [REPO_ROOT.mkdir(parents=True, exist_ok=True)] on an empty disk. *)
Definition booted (h : Host) : World :=
  (mkdir_parents (REPO_ROOT h) (mkWorld ∅ [])).2.

Definition acme_widgets : RepoCreate.t := RepoCreate.mk (py "acme") (py "widgets").

Definition acme_widgets_info : Repo.t :=
  Repo.mk (py "acme") (py "widgets")
    (py "/srv/app/repos/acme/widgets.git")
    (py "file:///srv/app/repos/acme/widgets.git").

(** ** Notions used in the statements *)

(** Runs of whitespace, and texts without any. *)
Definition blank (s : str) : Prop := Forall (fun c => is_space c = true) s.
Definition solid (s : str) : Prop := Forall (fun c => is_space c = false) s.



(** The descriptors [GET /repos] answers with. *)
Definition listing (h : Host) (w : World) : list Repo.t :=
  match (list_repos h w).1 with
  | Ok repos => repos
  | Raise _ => []
  end.

(** The world after a series of [POST /repos], whatever they answered. *)
Definition create_all (h : Host) (bodies : list RepoCreate.t) (w : World) : World :=
  foldl (fun w body => (create_repo h body w).2) w bodies.

Definition dot_x : RepoCreate.t := RepoCreate.mk (py ".") (py "x").

Definition widgets_dir : path := REPO_ROOT stock_host ++ [py "acme"; py "widgets.git"].

(** The world after the first [POST /repos] for acme/widgets. *)
Definition widgets_created : World :=
  (create_repo stock_host acme_widgets (booted stock_host)).2.

Definition first_push_env : HookEnv :=
  mkHookEnv widgets_dir None (py "2024-05-01T12:00:00Z").

Definition first_push : list (str * str * str) :=
  [ (py "0000000", py "1a2b3c4", py "refs/heads/main");
    (py "0000000", py "5d6e7f8", py "refs/tags/v1.0") ].

(** What "never half-installed" would mean for the calls of the installer,
    started in world [w]. *)
Definition hook_never_partial (h : Host) (org name : str) (w : World) : Prop :=
  ∀ k,
    let repo_dir := REPO_ROOT h // org // (name ++ py ".git") in
    let w' := (steps h k (AtHookMkdir org name) w).2 in
    hook_absent (fs w') repo_dir ∨ hook_installed (fs w') repo_dir.

(** The world in which the engine has just created acme/widgets. *)
Definition widgets_initialised : World :=
  (steps stock_host 4 (AtValidate acme_widgets) (booted stock_host)).2.

(** One request created the repository and the other was told it exists. *)
Definition one_winner (ra rb : result Repo.t) : Prop :=
  (is_Ok ra ∧ ∃ detail, rb = Raise (HTTPException 409 detail))
  ∨ (is_Ok rb ∧ ∃ detail, ra = Raise (HTTPException 409 detail)).

(** Both requests pass the existence check before either creates. *)
Definition race_schedule : list bool :=
  [true; true; false; false] ++ replicate 6 true ++ replicate 6 false.

(** A request served to the end before the other starts. *)
Definition serial_schedule : list bool := replicate 8 true ++ replicate 8 false.

(** The path a mutating call works on. *)
Definition call_path (c : call) : path :=
  match c with
  | CMkdir p | CGitInit p | COpenW p | CWrite p _ | CChmod p _ => p
  end.

(** The calls of one complete provisioning of [repo_dir], in order. *)
Definition provisioning_calls (repo_dir : path) : list call :=
  [ CMkdir (path_parent repo_dir); CGitInit repo_dir;
    CMkdir (repo_dir // py "hooks");
    COpenW (hook_path_of repo_dir);
    CWrite (hook_path_of repo_dir) hook_content;
    CChmod (hook_path_of repo_dir) mode_rwxr_xr_x ].







(** ** Proof automation *)

(** Unfolds the monad, leaving matches on the results of the calls. *)
Ltac run_monad :=
  unfold mbind, M_bind, bind, mret, M_ret, ret, raise, lift, logged, get_fs, put_fs,
    except_ValueError in *; simpl in *.

Ltac unfold_calls :=
  unfold write_post_receive_hook, write_text, write_str, path_exists, mkdir_parents,
    run_git_init_bare, open_w, write, chmod, read_text, rglob in *.

(** Takes one statement of [steps], by the unfolding equation [eqn] of
    [steps], and exposes the call it makes. *)
Ltac next_step_by eqn :=
  rewrite eqn; cbn [step]; unfold advance; unfold_calls; run_monad.

(** * Properties *)

(** ** Strings *)

Lemma starts_with_spec (pre s : str) :
  starts_with pre s = true ↔ ∃ b, s = pre ++ b.
Proof.
  revert s. induction pre as [|a pre IH]; intros s; simpl.
  - split; [eauto | done].
  - destruct s as [|b s].
    + split; [done | intros [? ?]; discriminate].
    + rewrite andb_true_iff, N.eqb_eq, IH. split.
      * intros [-> [t ->]]. eauto.
      * intros [t Ht]. injection Ht as -> ->. eauto.
Qed.

Lemma str_in_spec (sub s : str) : str_in sub s = true ↔ occurs_in sub s.
Proof.
  unfold occurs_in. induction s as [|c s IH]; simpl.
  - rewrite orb_false_r, starts_with_spec. split.
    + intros [b Hb]. exists [], b. done.
    + intros (a & b & H). symmetry in H.
      apply app_eq_nil in H as [-> H]. exists b. done.
  - rewrite orb_true_iff, starts_with_spec, IH. split.
    + intros [[b Hb] | (a & b & ->)].
      * exists [], b. done.
      * exists (c :: a), b. done.
    + intros (a & b & H). destruct a as [|c' a].
      * left. exists b. done.
      * right. injection H as -> ->. eauto.
Qed.

Lemma str_in_char (c : N) (s : str) : str_in [c] s = true ↔ c ∈ s.
Proof.
  induction s as [|d s IH]; simpl.
  - rewrite elem_of_nil. done.
  - rewrite orb_true_iff, IH, andb_true_r, N.eqb_eq, elem_of_cons. done.
Qed.

Lemma lstrip_split (s : str) : ∃ a, s = a ++ lstrip s ∧ blank a.
Proof.
  induction s as [|c s (a & Ha & Hb)]; simpl.
  - exists []. split; [done | constructor].
  - destruct (is_space c) eqn:Hc.
    + exists (c :: a). split; [by rewrite Ha at 1 | by constructor].
    + exists []. split; [done | constructor].
Qed.

Lemma lstrip_solid_head (c : N) (s : str) : is_space c = false → lstrip (c :: s) = c :: s.
Proof. intros H. simpl. by rewrite H. Qed.

Lemma rstrip_split (s : str) : ∃ b, s = rstrip s ++ b ∧ blank b.
Proof.
  destruct (lstrip_split (reverse s)) as (a & Ha & Hb).
  exists (reverse a). split.
  - unfold rstrip. rewrite <- reverse_app, <- Ha. by rewrite reverse_involutive.
  - unfold blank in *. by rewrite Forall_reverse.
Qed.

(** [strip] removes a run of whitespace at each end and nothing else. *)
Lemma strip_split (raw : str) :
  ∃ a b, raw = a ++ strip raw ++ b ∧ blank a ∧ blank b.
Proof.
  destruct (lstrip_split raw) as (a & Ha & Hba).
  destruct (rstrip_split (lstrip raw)) as (b & Hb & Hbb).
  exists a, b. unfold strip. by rewrite <- Hb.
Qed.

Lemma starts_with_blank_tail (sub s b : str) :
  solid sub → blank b → starts_with sub (s ++ b) = starts_with sub s.
Proof.
  intros Hsub Hb. revert sub Hsub.
  induction s as [|x s IH]; intros [|c sub] Hsub; simpl; try done.
  - destruct b as [|y b]; [done |].
    apply Forall_cons in Hsub as [Hc _]. apply Forall_cons in Hb as [Hy _].
    destruct (N.eqb_spec c y) as [->|]; [congruence | done].
  - apply Forall_cons in Hsub as [_ Hsub]. by rewrite IH.
Qed.

Lemma str_in_blank (sub b : str) :
  solid sub → sub ≠ [] → blank b → str_in sub b = false.
Proof.
  intros Hsub Hne Hb. destruct sub as [|c sub]; [done |].
  apply Forall_cons in Hsub as [Hc _].
  induction Hb as [|y b Hy Hb IH]; simpl; [done |].
  rewrite IH, orb_false_r.
  destruct (N.eqb_spec c y) as [->|]; [congruence | done].
Qed.

Lemma str_in_blank_tail (sub s b : str) :
  solid sub → sub ≠ [] → blank b → str_in sub (s ++ b) = str_in sub s.
Proof.
  intros Hsub Hne Hb. induction s as [|x s IH].
  - simpl app. rewrite str_in_blank by done. by destruct sub.
  - simpl. rewrite IH. f_equal.
    by apply (starts_with_blank_tail sub (x :: s) b).
Qed.

Lemma str_in_blank_head (sub a s : str) :
  solid sub → sub ≠ [] → blank a → str_in sub (a ++ s) = str_in sub s.
Proof.
  intros Hsub Hne Ha. destruct sub as [|c sub]; [done |].
  apply Forall_cons in Hsub as [Hc _].
  induction Ha as [|y a Hy Ha IH]; [done |].
  simpl app. simpl str_in at 1. rewrite IH.
  destruct (N.eqb_spec c y) as [->|]; [congruence | done].
Qed.

(** Trimming neither hides nor creates an occurrence of a text without
    whitespace. *)
Lemma str_in_strip (sub raw : str) :
  solid sub → sub ≠ [] → str_in sub (strip raw) = str_in sub raw.
Proof.
  intros Hsub Hne. destruct (strip_split raw) as (a & b & Hraw & Ha & Hb).
  rewrite Hraw at 2.
  by rewrite str_in_blank_head, str_in_blank_tail.
Qed.

(** The set built in [safe_name] is the class [[A-Za-z0-9._-]]. *)
Lemma allowed_spec (ch : N) : bool_decide (ch ∈ allowed) = allow_listed ch.
Proof.
  destruct (N.lt_ge_cases ch 128) as [Hlt | Hge].
  - assert (Hall : forallb (fun n => eqb (bool_decide (N.of_nat n ∈ allowed))
                                      (allow_listed (N.of_nat n))) (seq 0 128) = true)
      by (vm_compute; reflexivity).
    rewrite forallb_forall in Hall.
    specialize (Hall (N.to_nat ch)). rewrite N2Nat.id in Hall.
    apply eqb_prop, Hall, in_seq. lia.
  - transitivity false.
    + apply bool_decide_eq_false. unfold allowed. rewrite elem_of_list_to_set.
      intros Hin.
      assert (Hsmall : Forall (fun c => c < 128)
                (py "abcdefghijklmnopqrstuvwxyzABCDEFGHIJKLMNOPQRSTUVWXYZ0123456789-_."))
        by (apply Forall_forall; intros c Hc; vm_compute in Hc;
            repeat (apply elem_of_cons in Hc as [-> | Hc]; [reflexivity |]);
            by apply elem_of_nil in Hc).
      rewrite Forall_forall in Hsmall. specialize (Hsmall _ Hin). lia.
    + unfold allow_listed. lia.
Qed.

Lemma allow_listed_solid (c : N) : allow_listed c = true → is_space c = false.
Proof.
  unfold allow_listed, is_space. lia.
Qed.

(** ** NameValidator *)

Lemma outside_allow_list (s : str) :
  existsb (fun ch => negb (bool_decide (ch ∈ allowed))) s = true
  ↔ ∃ ch, ch ∈ s ∧ allow_listed ch = false.
Proof.
  rewrite existsb_exists. split; intros (ch & Hin & Hch); exists ch.
  - rewrite allowed_spec, negb_true_iff in Hch. by rewrite list_elem_of_In.
  - rewrite allowed_spec, negb_true_iff. by rewrite <- list_elem_of_In.
Qed.

Lemma separator_in_strip (c : N) (raw : str) :
  is_space c = false → str_in [c] (strip raw) = true ↔ c ∈ raw.
Proof.
  intros Hc. rewrite str_in_strip, str_in_char; [done | | done].
  by repeat constructor.
Qed.

Lemma dotdot_in_strip (raw : str) :
  str_in [ch_dot; ch_dot] (strip raw) = true ↔ occurs_in [ch_dot; ch_dot] raw.
Proof.
  rewrite str_in_strip, str_in_spec; [done | | done].
  by repeat constructor.
Qed.

Lemma safe_name_raise_iff (raw : str) :
  is_Raise (safe_name raw) ↔
    strip raw = [] ∨ ch_slash ∈ raw ∨ ch_backslash ∈ raw
    ∨ occurs_in [ch_dot; ch_dot] raw
    ∨ ∃ ch, ch ∈ strip raw ∧ allow_listed ch = false.
Proof.
  pose proof (separator_in_strip ch_slash raw eq_refl) as Hslash.
  pose proof (separator_in_strip ch_backslash raw eq_refl) as Hback.
  pose proof (dotdot_in_strip raw) as Hdots.
  pose proof (outside_allow_list (strip raw)) as Hout.
  unfold safe_name, is_Raise.
  case_bool_decide as Hempty; [split; [by left | eauto] |].
  destruct (str_in [ch_slash] (strip raw)) eqn:E1; simpl.
  { split; [intros _; right; left; by apply Hslash | eauto]. }
  destruct (str_in [ch_backslash] (strip raw)) eqn:E2; simpl.
  { split; [intros _; right; right; left; by apply Hback | eauto]. }
  destruct (str_in [ch_dot; ch_dot] (strip raw)) eqn:E3; simpl.
  { split; [intros _; do 3 right; left; by apply Hdots | eauto]. }
  destruct (existsb _ (strip raw)) eqn:E4.
  { split; [intros _; do 4 right; by apply Hout | eauto]. }
  split; [by intros [e ?] |].
  intros [H | [H | [H | [H | H]]]]; [done | | | |].
  - apply Hslash in H. congruence.
  - apply Hback in H. congruence.
  - apply Hdots in H. congruence.
  - apply Hout in H. congruence.
Qed.

Lemma safe_name_raise_inv (raw : str) (e : exn) :
  safe_name raw = Raise e → ∃ msg, e = ValueError msg.
Proof.
  unfold safe_name. intros H.
  repeat case_match; simplify_eq; eauto.
Qed.

(** What an accepted name looks like. *)
Lemma safe_name_ok_inv (raw s : str) :
  safe_name raw = Ok s →
  s = strip raw ∧ s ≠ [] ∧ (ch_slash ∉ s) ∧ (ch_backslash ∉ s)
  ∧ ¬ occurs_in [ch_dot; ch_dot] s
  ∧ Forall (fun c => allow_listed c = true) s.
Proof.
  unfold safe_name. intros H.
  case_bool_decide as Hempty; [done |].
  destruct (str_in [ch_slash] (strip raw)) eqn:E1; [done |].
  destruct (str_in [ch_backslash] (strip raw)) eqn:E2; [done |].
  destruct (str_in [ch_dot; ch_dot] (strip raw)) eqn:E3; [done |].
  destruct (existsb _ (strip raw)) eqn:E4; [done |].
  simpl in H. injection H as <-.
  split_and!; [done | done | | | |].
  - rewrite <- str_in_char. congruence.
  - rewrite <- str_in_char. congruence.
  - rewrite <- str_in_spec. congruence.
  - apply Forall_forall. intros c Hc.
    destruct (allow_listed c) eqn:Ec; [done |].
    assert (existsb (fun ch => negb (bool_decide (ch ∈ allowed))) (strip raw) = true)
      by (apply outside_allow_list; eauto).
    congruence.
Qed.

(** Strings made of allow-listed characters are left alone by [strip]. *)
Lemma strip_allow_listed (s : str) :
  Forall (fun c => allow_listed c = true) s → strip s = s.
Proof.
  intros Hs.
  assert (Hl : ∀ t, Forall (fun c => allow_listed c = true) t → lstrip t = t).
  { intros [|c t] Ht; [done |]. apply Forall_cons in Ht as [Hc _].
    by apply lstrip_solid_head, allow_listed_solid. }
  unfold strip, rstrip. rewrite (Hl s Hs), Hl, reverse_involutive; [done |].
  by apply Forall_reverse.
Qed.

(** An accepted name is accepted again, as it is. *)
Lemma safe_name_idem (raw s : str) : safe_name raw = Ok s → safe_name s = Ok s.
Proof.
  intros (_ & Hne & Hslash & Hback & Hdots & Hall)%safe_name_ok_inv.
  destruct (safe_name s) as [r | e] eqn:E.
  - apply safe_name_ok_inv in E as [-> _]. by rewrite strip_allow_listed.
  - exfalso. destruct (safe_name_raise_iff s) as [Hraise _].
    rewrite strip_allow_listed in Hraise by done.
    destruct Hraise as [H | [H | [H | [H | (ch & Hin & Hch)]]]];
      [rewrite E; by eexists | done | done | done | done |].
    rewrite Forall_forall in Hall. specialize (Hall _ Hin). congruence.
Qed.

(** C1. For every raw input, [safe_name] raises (always a [ValueError], which
    both endpoints turn into the 400 "invalid identifier" answer) exactly when
    the input is empty after trimming, or contains "/" or a backslash, or
    contains "..", or has, once trimmed, a character outside
    [[A-Za-z0-9._-]]; and a successful call returns the trimmed input as it
    is. *)
Theorem safe_name_spec (raw : str) :
  (is_Raise (safe_name raw) ↔
     strip raw = [] ∨ ch_slash ∈ raw ∨ ch_backslash ∈ raw
     ∨ occurs_in [ch_dot; ch_dot] raw
     ∨ ∃ ch, ch ∈ strip raw ∧ allow_listed ch = false)
  ∧ (∀ e, safe_name raw = Raise e → ∃ msg, e = ValueError msg)
  ∧ (∀ s, safe_name raw = Ok s → s = strip raw).
Proof.
  split_and!.
  - apply safe_name_raise_iff.
  - apply safe_name_raise_inv.
  - intros s Hs. by apply safe_name_ok_inv in Hs as [-> _].
Qed.

(** C8, as the code has it. A non-empty string of allow-listed characters
    that does not contain ".." is accepted and returned unchanged. *)
Theorem safe_name_accepts (s : str) :
  s ≠ [] →
  Forall (fun c => allow_listed c = true) s →
  ¬ occurs_in [ch_dot; ch_dot] s →
  safe_name s = Ok s.
Proof.
  intros Hne Hall Hdots.
  destruct (safe_name s) as [r | e] eqn:E.
  - apply safe_name_ok_inv in E as [-> _]. by rewrite strip_allow_listed.
  - exfalso. destruct (safe_name_raise_iff s) as [Hraise _].
    rewrite strip_allow_listed in Hraise by done.
    rewrite Forall_forall in Hall.
    destruct Hraise as [H | [H | [H | [H | (ch & Hin & Hch)]]]];
      [rewrite E; by eexists | done | | | done |].
    + by specialize (Hall _ H).
    + by specialize (Hall _ H).
    + specialize (Hall _ Hin). congruence.
Qed.

Lemma safe_name_accepts_witness : safe_name (py "Widgets-2.0_x") = Ok (py "Widgets-2.0_x").
Proof.
  apply safe_name_accepts.
  - done.
  - compute_done.
  - intros H. apply str_in_spec in H. vm_compute in H. discriminate H.
Defined.

(** C8, as stated, fails: ".." is not empty and made of allow-listed
    characters only, and is rejected. *)
Lemma safe_name_rejects_dotdot :
  py ".." ≠ []
  ∧ Forall (fun c => allow_listed c = true) (py "..")
  ∧ safe_name (py "..") = Raise (ValueError (py "Invalid name")).
Proof. split_and!; compute_done. Qed.

(** ** Paths *)

Lemma split_on_absent (sep : N) (s : str) : sep ∉ s → split_on sep s = [s].
Proof.
  induction s as [|c s IH]; intros Hs; simpl; [done |].
  apply not_elem_of_cons in Hs as [Hc Hs].
  destruct (N.eqb_spec c sep) as [->|]; [done |]. by rewrite IH.
Qed.

Lemma starts_with_absent (c : N) (s : str) : c ∉ s → starts_with [c] s = false.
Proof.
  destruct s as [|d s]; intros Hs; simpl; [done |].
  apply not_elem_of_cons in Hs as [Hc _].
  destruct (N.eqb_spec c d); [congruence | done].
Qed.

(** Joining a text without "/": one component is added, unless the text is
    empty or a single dot, which [pathlib] drops. *)
Lemma joinpath_component (p : path) (s : str) :
  ch_slash ∉ s →
  p // s = if bool_decide (s ≠ [] ∧ s ≠ [ch_dot]) then p ++ [s] else p.
Proof.
  intros Hs. unfold joinpath, parse_parts.
  rewrite starts_with_absent, split_on_absent by done.
  rewrite filter_cons, filter_nil.
  case_bool_decide; case_decide; try done. by rewrite app_nil_r.
Qed.

Lemma joinpath_git_suffix (p : path) (name : str) :
  ch_slash ∉ name → p // (name ++ py ".git") = p ++ [name ++ py ".git"].
Proof.
  intros Hs. rewrite joinpath_component.
  - rewrite bool_decide_eq_true_2; [done |]. split.
    + by destruct name.
    + intros H. apply (f_equal length) in H. rewrite length_app in H.
      simpl in H. lia.
  - rewrite not_elem_of_app. split; [done |].
    vm_compute. intros H.
    repeat (apply elem_of_cons in H as [H | H]; [discriminate |]).
    by apply elem_of_nil in H.
Qed.

Lemma REPO_ROOT_eq (h : Host) : REPO_ROOT h = APP_ROOT h ++ [py "repos"].
Proof. reflexivity. Qed.

(** The directory both endpoints compute, for accepted names. *)
Lemma repo_dir_eq (h : Host) (raw_org raw_name org name : str) :
  safe_name raw_org = Ok org → safe_name raw_name = Ok name →
  REPO_ROOT h // org // (name ++ py ".git") =
    REPO_ROOT h ++ (if bool_decide (org = [ch_dot]) then [] else [org])
                ++ [name ++ py ".git"].
Proof.
  intros (_ & Hne & Hslash & _)%safe_name_ok_inv (_ & _ & Hslash' & _)%safe_name_ok_inv.
  rewrite joinpath_git_suffix, joinpath_component by done.
  destruct (decide (org = [ch_dot])) as [-> | Hdot].
  - rewrite bool_decide_eq_false_2 by (by intros [_ ?]).
    by rewrite bool_decide_eq_true_2.
  - rewrite bool_decide_eq_true_2, bool_decide_eq_false_2 by done.
    by rewrite <- app_assoc.
Qed.

Lemma joinpath_hooks (p : path) : p // py "hooks" = p ++ [py "hooks"].
Proof. reflexivity. Qed.

Lemma joinpath_post_receive (p : path) : p // py "post-receive" = p ++ [py "post-receive"].
Proof. reflexivity. Qed.

Lemma joinpath_push_log (p : path) : p // py "push.log" = p ++ [py "push.log"].
Proof. reflexivity. Qed.

Lemma hook_path_of_eq (p : path) :
  p // py "hooks" // py "post-receive" = hook_path_of p.
Proof.
  rewrite joinpath_hooks, joinpath_post_receive. unfold hook_path_of.
  by rewrite <- app_assoc.
Qed.

(** ** Directory creation *)

Lemma mkdir_from_keeps (done_ todo : path) (f f' : gmap path node) (q : path) (n : node) :
  mkdir_from done_ todo f = Some f' → f !! q = Some n → f' !! q = Some n.
Proof.
  revert done_ f. induction todo as [|c todo IH]; intros done_ f Hmk Hq; simpl in Hmk.
  - by simplify_eq.
  - destruct (f !! (done_ ++ [c])) as [[|m d]|] eqn:E; [by eauto | done |].
    destruct (too_long c); [done |].
    eapply IH; [done |]. rewrite lookup_insert_ne; [done |]. congruence.
Qed.

Lemma mkdir_from_other (done_ todo : path) (f f' : gmap path node) (q : path) :
  mkdir_from done_ todo f = Some f' →
  (length q ≤ length done_ ∨ length done_ + length todo < length q)%nat →
  f' !! q = f !! q.
Proof.
  revert done_ f. induction todo as [|c todo IH]; intros done_ f Hmk Hq; simpl in Hmk.
  - by simplify_eq.
  - assert (Hne : done_ ++ [c] ≠ q).
    { intros <-. rewrite length_app in Hq. simpl in Hq. lia. }
    assert (Hq' : (length q ≤ length (done_ ++ [c])
                   ∨ length (done_ ++ [c]) + length todo < length q)%nat).
    { rewrite length_app. simpl in *. lia. }
    destruct (f !! (done_ ++ [c])) as [[|m d]|] eqn:E; [by eauto | done |].
    destruct (too_long c); [done |].
    rewrite (IH _ _ Hmk Hq'). by rewrite lookup_insert_ne.
Qed.

Lemma mkdir_from_dirs (done_ todo : path) (f f' : gmap path node) (k : nat) :
  mkdir_from done_ todo f = Some f' →
  (0 < k ≤ length todo)%nat →
  f' !! (done_ ++ take k todo) = Some Dir.
Proof.
  revert done_ f k. induction todo as [|c todo IH]; intros done_ f k Hmk Hk; simpl in *.
  - lia.
  - destruct k as [|k]; [lia |]. simpl.
    assert (Hhere : ∀ g, g !! (done_ ++ [c]) = Some Dir →
                         mkdir_from (done_ ++ [c]) todo g = Some f' →
                         f' !! (done_ ++ c :: take k todo) = Some Dir).
    { intros g Hg Hmk'. destruct k as [|k].
      - rewrite take_0. eapply mkdir_from_keeps; done.
      - rewrite (cons_middle c), app_assoc. eapply IH; [done | lia]. }
    destruct (f !! (done_ ++ [c])) as [[|m d]|] eqn:E; [by eauto | done |].
    destruct (too_long c); [done |].
    eapply Hhere; [| done]. by rewrite lookup_insert_eq.
Qed.

Lemma mkdir_stops_keeps (done_ todo : path) (f : gmap path node) (q : path) (n : node) :
  f !! q = Some n → mkdir_stops done_ todo f !! q = Some n.
Proof.
  revert done_ f. induction todo as [|c todo IH]; intros done_ f Hq; simpl; [done |].
  destruct (f !! (done_ ++ [c])) as [[|m d]|] eqn:E; [by eauto | done |].
  destruct (too_long c); [done |].
  apply IH. rewrite lookup_insert_ne; [done |]. congruence.
Qed.


(** Below directories that are there, only the last name counts. *)
Lemma stat_too_long_last (done_ p : path) (c : str) (f : gmap path node) :
  (∀ k, (0 < k ≤ length p)%nat → f !! (done_ ++ take k p) = Some Dir) →
  f !! (done_ ++ p ++ [c]) = None →
  stat_too_long done_ (p ++ [c]) f = too_long c.
Proof.
  revert done_. induction p as [|x p IH]; intros done_ Hdirs Hlast; simpl in *.
  - by rewrite Hlast.
  - pose proof (Hdirs 1%nat) as H1. simpl in H1. rewrite take_0 in H1.
    rewrite H1 by lia. apply IH.
    + intros k Hk. specialize (Hdirs (S k)). simpl in Hdirs.
      rewrite <- app_assoc. apply Hdirs. lia.
    + by rewrite <- app_assoc.
Qed.

(** The script is ASCII: its encoding is itself. *)
Lemma hook_content_bytes : utf8_encode hook_content = Some hook_content.
Proof. vm_compute. reflexivity. Qed.

(** ** The hook installer, by cases *)

Lemma path_parent_snoc_of (p : path) (c : str) : path_parent (p ++ [c]) = p.
Proof.
  unfold path_parent. rewrite length_app. simpl.
  replace (length p + 1 - 1)%nat with (length p) by lia.
  by rewrite take_app_length.
Qed.

Lemma is_dir_snoc (f : gmap path node) (p : path) (c : str) :
  is_dir f (p ++ [c]) = bool_decide (f !! (p ++ [c]) = Some Dir).
Proof. by destruct p. Qed.

(** The installer, by cases on what is on disk. *)
Lemma write_post_receive_hook_unfold (h : Host) (repo_dir : path) (w : World) :
  write_post_receive_hook h repo_dir w =
    match mkdir_from [] (repo_dir ++ [py "hooks"]) (fs w) with
    | None =>
        (Raise OSError,
         mkWorld (mkdir_stops [] (repo_dir ++ [py "hooks"]) (fs w))
           (calls w ++ [CMkdir (repo_dir ++ [py "hooks"])]))
    | Some f1 =>
        match f1 !! hook_path_of repo_dir with
        | Some Dir =>
            (Raise OSError,
             mkWorld f1 (calls w ++ [CMkdir (repo_dir ++ [py "hooks"]);
                                     COpenW (hook_path_of repo_dir)]))
        | _ =>
            (Ok tt,
             mkWorld (<[hook_path_of repo_dir := File mode_rwxr_xr_x hook_content]> f1)
               (calls w ++ [CMkdir (repo_dir ++ [py "hooks"]);
                            COpenW (hook_path_of repo_dir);
                            CWrite (hook_path_of repo_dir) hook_content;
                            CChmod (hook_path_of repo_dir) mode_rwxr_xr_x]))
        end
    end.
Proof.
  unfold write_post_receive_hook. unfold_calls. rewrite hook_content_bytes. run_monad.
  rewrite hook_path_of_eq, joinpath_hooks.
  destruct (mkdir_from [] _ (fs w)) as [f1|] eqn:Emk; simpl; [| done].
  assert (Hdir : is_dir f1 (path_parent (hook_path_of repo_dir)) = true).
  { unfold hook_path_of.
    change [py "hooks"; py "post-receive"] with ([py "hooks"] ++ [py "post-receive"]).
    rewrite app_assoc, path_parent_snoc_of, is_dir_snoc.
    apply bool_decide_eq_true_2.
    pose proof (mkdir_from_dirs [] _ _ _ (length (repo_dir ++ [py "hooks"])) Emk) as H.
    rewrite firstn_all in H. apply H. rewrite length_app. simpl. lia. }
  rewrite Hdir.
  destruct (f1 !! hook_path_of repo_dir) as [[|m d]|] eqn:Ehook; simpl.
  - by rewrite <- app_assoc.
  - rewrite !lookup_insert_eq. simpl. rewrite !lookup_insert_eq. simpl.
    by rewrite !insert_insert_eq, <- !app_assoc.
  - rewrite !lookup_insert_eq. simpl. rewrite !lookup_insert_eq. simpl.
    by rewrite !insert_insert_eq, <- !app_assoc.
Qed.

(** ** Provisioning *)

(** An invalid identifier is answered with 400 and the validator's message. *)
Lemma create_repo_invalid (h : Host) (body : RepoCreate.t) (w : World) (e : exn) :
  safe_name (RepoCreate.org body) = Raise e
  ∨ (is_Ok (safe_name (RepoCreate.org body)) ∧ safe_name (RepoCreate.name body) = Raise e) →
  ∃ msg, e = ValueError msg
         ∧ create_repo h body w = (Raise (HTTPException 400 msg), w).
Proof.
  unfold create_repo. run_monad.
  intros [Horg | [[org Horg] Hname]].
  - destruct (safe_name_raise_inv _ _ Horg) as [msg ->]. exists msg.
    by rewrite Horg.
  - destruct (safe_name_raise_inv _ _ Hname) as [msg ->]. exists msg.
    by rewrite Horg, Hname.
Qed.

(** [create_repo] on accepted names, by cases on what is on disk and on
    what the engine does. *)
Lemma create_repo_unfold (h : Host) (body : RepoCreate.t) (o n : str) (w : World) :
  safe_name (RepoCreate.org body) = Ok o → safe_name (RepoCreate.name body) = Ok n →
  create_repo h body w =
    let repo_dir := REPO_ROOT h // o // (n ++ py ".git") in
    match fs w !! repo_dir with
    | Some _ => (Raise (HTTPException 409 (py "Repo already exists")), w)
    | None =>
        if exists_reraises h && stat_too_long [] repo_dir (fs w) then (Raise OSError, w) else
        match mkdir_from [] (path_parent repo_dir) (fs w) with
        | None =>
            (Raise OSError,
             mkWorld (mkdir_stops [] (path_parent repo_dir) (fs w))
               (calls w ++ take 1 (provisioning_calls repo_dir)))
        | Some f1 =>
            match git_init_bare h repo_dir f1 with
            | (false, f2) =>
                (Raise CalledProcessError,
                 mkWorld f2 (calls w ++ take 2 (provisioning_calls repo_dir)))
            | (true, f2) =>
                match mkdir_from [] (repo_dir // py "hooks") f2 with
                | None =>
                    (Raise OSError,
                     mkWorld (mkdir_stops [] (repo_dir // py "hooks") f2)
                       (calls w ++ take 3 (provisioning_calls repo_dir)))
                | Some f3 =>
                    match f3 !! hook_path_of repo_dir with
                    | Some Dir =>
                        (Raise OSError,
                         mkWorld f3 (calls w ++ take 4 (provisioning_calls repo_dir)))
                    | _ =>
                        (Ok (Repo.mk o n (path_str repo_dir)
                               (py "file://" ++ path_str repo_dir)),
                         mkWorld
                           (<[hook_path_of repo_dir := File mode_rwxr_xr_x hook_content]> f3)
                           (calls w ++ provisioning_calls repo_dir))
                    end
                end
            end
        end
    end.
Proof.
  intros Horg Hname. cbv zeta.
  set (repo_dir := REPO_ROOT h // o // (n ++ py ".git")).
  unfold create_repo, path_exists, mkdir_parents, run_git_init_bare.
  unfold mbind, M_bind, bind, mret, M_ret, ret, raise, lift, logged, get_fs, put_fs,
    except_ValueError.
  rewrite Horg, Hname. cbn [fst snd fs calls]. fold repo_dir.
  destruct (fs w !! repo_dir) as [x|] eqn:Erepo.
  { rewrite bool_decide_eq_true_2 by eauto. done. }
  rewrite bool_decide_eq_false_2 by (by intros [? ?]).
  destruct (exists_reraises h && stat_too_long [] repo_dir (fs w)); [done |].
  destruct (mkdir_from [] (path_parent repo_dir) (fs w)) as [f1|] eqn:Emk1; [| done].
  cbn [fst snd fs calls].
  destruct (git_init_bare h repo_dir f1) as [[] f2] eqn:Egit; cbn [fst snd fs calls].
  2: { by rewrite <- app_assoc. }
  rewrite write_post_receive_hook_unfold. cbn [fst snd fs calls].
  rewrite joinpath_hooks.
  destruct (mkdir_from [] (repo_dir ++ [py "hooks"]) f2) as [f3|] eqn:Emk2.
  2: { by rewrite <- !app_assoc. }
  destruct (f3 !! hook_path_of repo_dir) as [[|m d]|] eqn:Ehook;
    by rewrite <- !app_assoc.
Qed.

Lemma create_repo_ok_inv (h : Host) (body : RepoCreate.t) (w w' : World) (d : Repo.t) :
  create_repo h body w = (Ok d, w') →
  ∃ org name f1 f2 f3,
    let repo_dir := REPO_ROOT h // org // (name ++ py ".git") in
    safe_name (RepoCreate.org body) = Ok org
    ∧ safe_name (RepoCreate.name body) = Ok name
    ∧ d = Repo.mk org name (path_str repo_dir) (py "file://" ++ path_str repo_dir)
    ∧ fs w !! repo_dir = None
    ∧ mkdir_from [] (path_parent repo_dir) (fs w) = Some f1
    ∧ git_init_bare h repo_dir f1 = (true, f2)
    ∧ mkdir_from [] (repo_dir // py "hooks") f2 = Some f3
    ∧ fs w' = <[hook_path_of repo_dir := File mode_rwxr_xr_x hook_content]> f3
    ∧ calls w' = calls w ++
        [ CMkdir (path_parent repo_dir); CGitInit repo_dir;
          CMkdir (repo_dir // py "hooks");
          COpenW (hook_path_of repo_dir);
          CWrite (hook_path_of repo_dir) hook_content;
          CChmod (hook_path_of repo_dir) mode_rwxr_xr_x ].
Proof.
  intros H.
  destruct (safe_name (RepoCreate.org body)) as [org|e1] eqn:Eorg.
  2: { destruct (create_repo_invalid h body w e1 (or_introl Eorg)) as (msg & _ & E).
       rewrite E in H. discriminate H. }
  destruct (safe_name (RepoCreate.name body)) as [name|e2] eqn:Ename.
  2: { destruct (create_repo_invalid h body w e2) as (msg & _ & E).
       { right. split; [by eexists | done]. }
       rewrite E in H. discriminate H. }
  rewrite (create_repo_unfold h body org name w Eorg Ename) in H. cbv zeta in H.
  exists org, name.
  set (repo_dir := REPO_ROOT h // org // (name ++ py ".git")) in *.
  destruct (fs w !! repo_dir) as [x|] eqn:Erepo; [discriminate H |].
  destruct (exists_reraises h && stat_too_long [] repo_dir (fs w)); [discriminate H |].
  destruct (mkdir_from [] (path_parent repo_dir) (fs w)) as [f1|] eqn:Emk1;
    [| discriminate H].
  destruct (git_init_bare h repo_dir f1) as [[] f2] eqn:Egit; [| discriminate H].
  destruct (mkdir_from [] (repo_dir // py "hooks") f2) as [f3|] eqn:Emk2;
    [| discriminate H].
  exists f1, f2, f3. cbv zeta.
  destruct (f3 !! hook_path_of repo_dir) as [[|m d0]|]; [discriminate H | |];
    injection H as <- <-; done.
Qed.

(** Once created, the repository directory and its ancestors are
    directories. *)
Lemma create_repo_ok_dirs (h : Host) (body : RepoCreate.t) (w w' : World) (d : Repo.t)
    (org name : str) (k : nat) :
  create_repo h body w = (Ok d, w') →
  safe_name (RepoCreate.org body) = Ok org →
  safe_name (RepoCreate.name body) = Ok name →
  (0 < k ≤ length (REPO_ROOT h // org // (name ++ py ".git")))%nat →
  fs w' !! take k (REPO_ROOT h // org // (name ++ py ".git")) = Some Dir.
Proof.
  intros H Horg Hname Hk.
  destruct (create_repo_ok_inv _ _ _ _ _ H)
    as (org' & name' & f1 & f2 & f3 & Horg' & Hname' & _ & _ & _ & _ & Hmk & Hfs & _).
  rewrite Horg in Horg'. rewrite Hname in Hname'.
  injection Horg' as <-. injection Hname' as <-.
  set (repo_dir := REPO_ROOT h // org // (name ++ py ".git")) in *.
  rewrite Hfs, lookup_insert_ne.
  - rewrite joinpath_hooks in Hmk.
    pose proof (mkdir_from_dirs [] _ _ _ k Hmk) as Hdir.
    rewrite take_app_le in Hdir by lia. apply Hdir.
    rewrite length_app. simpl. lia.
  - unfold hook_path_of. intros Heq. apply (f_equal length) in Heq.
    rewrite length_app, length_take in Heq. simpl in Heq. lia.
Qed.

(** Whatever is refused with an HTTP status is refused before anything is
    attempted. *)
Lemma create_repo_http_inv (h : Host) (body : RepoCreate.t) (w w' : World)
    (status : N) (detail : str) :
  create_repo h body w = (Raise (HTTPException status detail), w') →
  w' = w ∧ (status = 400 ∨ status = 409).
Proof.
  intros H.
  destruct (safe_name (RepoCreate.org body)) as [org|e1] eqn:Eorg.
  2: { destruct (create_repo_invalid h body w e1 (or_introl Eorg)) as (msg & _ & E).
       rewrite E in H. injection H as <- _ <-. auto. }
  destruct (safe_name (RepoCreate.name body)) as [name|e2] eqn:Ename.
  2: { destruct (create_repo_invalid h body w e2) as (msg & _ & E).
       { right. split; [by eexists | done]. }
       rewrite E in H. injection H as <- _ <-. auto. }
  rewrite (create_repo_unfold h body org name w Eorg Ename) in H. cbv zeta in H.
  repeat (case_match; try discriminate H).
  injection H as <- _ <-. auto.
Qed.


Lemma create_repo_conflict (h : Host) (body : RepoCreate.t) (w : World) (org name : str) :
  safe_name (RepoCreate.org body) = Ok org →
  safe_name (RepoCreate.name body) = Ok name →
  is_Some (fs w !! (REPO_ROOT h // org // (name ++ py ".git"))) →
  create_repo h body w = (Raise (HTTPException 409 (py "Repo already exists")), w).
Proof.
  intros Horg Hname [x Hpresent].
  rewrite (create_repo_unfold h body org name w Horg Hname). cbv zeta.
  by rewrite Hpresent.
Qed.

Lemma steps_finished (h : Host) (n : nat) (r : result Repo.t) (w : World) :
  steps h n (Finished r) w = (Finished r, w).
Proof. induction n as [|n IH]; [done |]. cbn [steps step]. apply IH. Qed.

Lemma steps_S (h : Host) (n : nat) (c : pc) (w : World) :
  steps h (S n) c w = let '(c', w') := step h c w in steps h n c' w'.
Proof. reflexivity. Qed.

(** Running the statements one by one is the function. *)
Lemma steps_create_repo (h : Host) (body : RepoCreate.t) (w : World) :
  steps h 8 (AtValidate body) w =
    (Finished (create_repo h body w).1, (create_repo h body w).2).
Proof.
  destruct (safe_name (RepoCreate.org body)) as [org|e1] eqn:Eorg.
  2: { destruct (create_repo_invalid h body w e1 (or_introl Eorg)) as (msg & -> & ->).
       next_step_by steps_S. rewrite Eorg. by rewrite ?steps_finished. }
  destruct (safe_name (RepoCreate.name body)) as [name|e2] eqn:Ename.
  2: { destruct (create_repo_invalid h body w e2) as (msg & -> & ->).
       { right. split; [by eexists | done]. }
       next_step_by steps_S. rewrite Eorg, Ename. by rewrite ?steps_finished. }
  rewrite (create_repo_unfold h body org name w Eorg Ename). cbv zeta.
  next_step_by steps_S. rewrite Eorg, Ename. simpl. next_step_by steps_S.
  destruct (fs w !! (REPO_ROOT h // org // (name ++ py ".git"))) as [x|] eqn:Erepo.
  { rewrite bool_decide_eq_true_2 by eauto. by rewrite ?steps_finished. }
  rewrite bool_decide_eq_false_2 by (by intros [? ?]).
  destruct (exists_reraises h && stat_too_long [] _ _); [by rewrite ?steps_finished |].
  next_step_by steps_S.
  destruct (mkdir_from [] _ (fs w)) as [f1|] eqn:Emk1; [| by rewrite ?steps_finished].
  next_step_by steps_S.
  destruct (git_init_bare h _ f1) as [[] f2] eqn:Egit;
    [| by rewrite ?steps_finished, <- ?app_assoc].
  next_step_by steps_S.
  destruct (mkdir_from [] _ f2) as [f3|] eqn:Emk2;
    [| by rewrite ?steps_finished, <- ?app_assoc].
  next_step_by steps_S. rewrite ?hook_path_of_eq.
  assert (Hdir : is_dir f3 (path_parent (hook_path_of
                   (REPO_ROOT h // org // (name ++ py ".git")))) = true).
  { unfold hook_path_of.
    change [py "hooks"; py "post-receive"] with ([py "hooks"] ++ [py "post-receive"]).
    rewrite app_assoc, path_parent_snoc_of, is_dir_snoc.
    apply bool_decide_eq_true_2. rewrite joinpath_hooks in Emk2.
    pose proof (mkdir_from_dirs [] _ _ _ (length (REPO_ROOT h // org // (name ++ py ".git")
                                                 ++ [py "hooks"])) Emk2) as H.
    rewrite firstn_all in H. apply H. rewrite length_app. simpl. lia. }
  rewrite Hdir.
  destruct (f3 !! hook_path_of _) as [[|m d0]|] eqn:Ehook;
    [by rewrite ?steps_finished, <- ?app_assoc | |];
    rewrite steps_S; cbn [step]; unfold advance; unfold_calls;
    rewrite hook_content_bytes; run_monad; rewrite ?hook_path_of_eq;
    rewrite !lookup_insert_eq; next_step_by steps_S;
    rewrite ?hook_path_of_eq, !lookup_insert_eq; simpl;
    by rewrite ?steps_finished, !insert_insert_eq, <- ?app_assoc.
Qed.




(** C2. A call of [create_repo] that ends in the 400 or the 409 answer
    leaves the world as it found it: same filesystem, and no mutating call
    was attempted. On the stock host, creating ("acme", "widgets") twice in a
    row gives the 409 answer the second time, and one repository is on disk. *)
Theorem create_repo_rejection_leaves_disk :
  (∀ (h : Host) (body : RepoCreate.t) (w w' : World) (status : N) (detail : str),
     status = 400 ∨ status = 409 →
     create_repo h body w = (Raise (HTTPException status detail), w') →
     w' = w)
  ∧ (let first := create_repo stock_host acme_widgets (booted stock_host) in
     let second := create_repo stock_host acme_widgets first.2 in
     first.1 = Ok acme_widgets_info
     ∧ second = (Raise (HTTPException 409 (py "Repo already exists")), first.2)
     ∧ repositories_on_disk (fs second.2)
       = [widgets_dir]).
Proof.
  split.
  - intros h body w w' status detail _ H.
    by destruct (create_repo_http_inv _ _ _ _ _ _ H).
  - cbv zeta. split_and!; compute_done.
Qed.

Lemma create_repo_rejection_leaves_disk_witness :
  (create_repo stock_host acme_widgets widgets_created).2 = widgets_created.
Proof.
  apply (proj1 create_repo_rejection_leaves_disk stock_host acme_widgets
           widgets_created
           (create_repo stock_host acme_widgets widgets_created).2
           409 (py "Repo already exists")).
  - right. reflexivity.
  - compute_done.
Defined.



(** ** Storage paths *)

(** For accepted names other than the organization ".", the directory is
    two levels below the storage root. *)
Lemma repo_dir_two_level (h : Host) (raw_org raw_name org name : str) :
  safe_name raw_org = Ok org → safe_name raw_name = Ok name →
  org ≠ [ch_dot] →
  REPO_ROOT h // org // (name ++ py ".git") = REPO_ROOT h ++ [org; name ++ py ".git"].
Proof.
  intros Horg Hname Hdot. rewrite (repo_dir_eq h _ _ _ _ Horg Hname).
  by rewrite bool_decide_eq_false_2.
Qed.

(** C4, where it fails. The organization "." passes [safe_name], and
    [pathlib] drops a single dot when joining: the repository is created
    directly under the storage root, at [<root>/x.git], the descriptor says
    so, nothing exists at [<root>/./x.git], and the push log is looked
    up in the same one-level place. *)
Theorem repo_dir_single_dot :
  let created := create_repo stock_host dot_x (booted stock_host) in
  created.1 = Ok (Repo.mk (py ".") (py "x") (py "/srv/app/repos/x.git")
                    (py "file:///srv/app/repos/x.git"))
  ∧ CGitInit (REPO_ROOT stock_host ++ [py "x.git"]) ∈ calls created.2
  ∧ is_bare_repository (fs created.2) (REPO_ROOT stock_host ++ [py "x.git"]) = true
  ∧ fs created.2 !! (REPO_ROOT stock_host ++ [py "."; py "x.git"]) = None
  ∧ (get_push_log stock_host (py ".") (py "x") created.2).1
    = Ok (PushLog.mk (py ".") (py "x") [] (Some (py "No pushes logged yet"))).
Proof. cbv zeta. split_and!; compute_done. Qed.

(** ** PushLogReader *)




(** The reader on accepted names, by cases on what is on disk. *)
Lemma get_push_log_unfold (h : Host) (org name o n : str) (w : World) :
  safe_name org = Ok o → safe_name name = Ok n →
  get_push_log h org name w =
    let repo_dir := REPO_ROOT h // o // (n ++ py ".git") in
    match fs w !! repo_dir with
    | None =>
        if exists_reraises h && stat_too_long [] repo_dir (fs w) then (Raise OSError, w)
        else (Raise (HTTPException 404 (py "Repo not found")), w)
    | Some _ =>
        match fs w !! (repo_dir ++ [py "push.log"]) with
        | None =>
            if exists_reraises h && stat_too_long [] (repo_dir ++ [py "push.log"]) (fs w)
            then (Raise OSError, w)
            else (Ok (PushLog.mk o n [] (Some (py "No pushes logged yet"))), w)
        | Some (File _ d) =>
            match utf8_decode d with
            | Some text => (Ok (PushLog.mk o n (universal_newlines text) None), w)
            | None => (Raise UnicodeDecodeError, w)
            end
        | Some Dir => (Raise OSError, w)
        end
    end.
Proof.
  intros Horg Hname. unfold get_push_log. unfold_calls. run_monad.
  rewrite Horg, Hname. simpl.
  destruct (fs w !! (REPO_ROOT h // o // (n ++ py ".git"))) as [x|] eqn:Erepo.
  - rewrite bool_decide_eq_true_2 by eauto. simpl.
    rewrite joinpath_push_log.
    destruct (fs w !! (_ ++ [py "push.log"])) as [[|m d]|] eqn:Elog.
    + rewrite bool_decide_eq_true_2 by eauto. simpl. by rewrite Elog.
    + rewrite bool_decide_eq_true_2 by eauto. simpl. rewrite Elog.
      by destruct (utf8_decode d).
    + rewrite bool_decide_eq_false_2 by (by intros [? ?]).
      by destruct (exists_reraises h && stat_too_long [] _ _).
  - rewrite bool_decide_eq_false_2 by (by intros [? ?]).
    by destruct (exists_reraises h && stat_too_long [] _ _).
Qed.




(** ** Listing *)

(** What the listing is, in general: one descriptor for every entry at any
    depth below the storage root whose name ends in ".git". *)
Lemma listing_elem (h : Host) (w : World) (r : Repo.t) :
  r ∈ listing h w ↔
    ∃ p, is_Some (fs w !! p)
         ∧ is_below (REPO_ROOT h) p = true
         ∧ ends_with (py ".git") (path_name p) = true
         ∧ r = Repo.mk (path_name (path_parent p)) (path_stem p) (path_str p)
                 (py "file://" ++ path_str p).
Proof.
  unfold listing, list_repos. unfold_calls. run_monad.
  rewrite list_elem_of_fmap. split.
  - intros (p & -> & Hp). apply list_elem_of_filter in Hp as [Hmatch Hin].
    apply list_elem_of_fmap in Hin as ([q x] & -> & Hqx).
    apply elem_of_map_to_list in Hqx. simpl in *.
    apply andb_prop_elim in Hmatch as [Hbelow Hends].
    exists q. split_and!; [by eexists | by apply Is_true_eq_true.. | done].
  - intros (p & [x Hx] & Hbelow & Hends & ->). exists p. split; [done |].
    apply list_elem_of_filter. split.
    + rewrite Hbelow, Hends. done.
    + apply list_elem_of_fmap. exists (p, x). split; [done |].
      by apply elem_of_map_to_list.
Qed.

(** On the stock host, after creating ("acme", "a") and ("acme", "b") the
    listing has these two and nothing else. *)
Lemma list_repos_acme_a_b :
  let w := create_all stock_host
             [RepoCreate.mk (py "acme") (py "a"); RepoCreate.mk (py "acme") (py "b")]
             (booted stock_host) in
  length (listing stock_host w) = 2%nat
  ∧ Repo.mk (py "acme") (py "a") (py "/srv/app/repos/acme/a.git")
      (py "file:///srv/app/repos/acme/a.git") ∈ listing stock_host w
  ∧ Repo.mk (py "acme") (py "b") (py "/srv/app/repos/acme/b.git")
      (py "file:///srv/app/repos/acme/b.git") ∈ listing stock_host w.
Proof. cbv zeta. split_and!; compute_done. Qed.

(** C7, where it fails. [rglob] matches at any depth, so an organization
    whose own name ends in ".git" is listed as if it were a repository:
    after the single creation of ("x.git", "a") the listing has two entries,
    one of them for the organization directory, under the organization
    "repos". *)
Theorem list_repos_lists_org_directory :
  let w := create_all stock_host [RepoCreate.mk (py "x.git") (py "a")] (booted stock_host) in
  repositories_on_disk (fs w) = [REPO_ROOT stock_host ++ [py "x.git"; py "a.git"]]
  ∧ length (listing stock_host w) = 2%nat
  ∧ Repo.mk (py "x.git") (py "a") (py "/srv/app/repos/x.git/a.git")
      (py "file:///srv/app/repos/x.git/a.git") ∈ listing stock_host w
  ∧ Repo.mk (py "repos") (py "x") (py "/srv/app/repos/x.git")
      (py "file:///srv/app/repos/x.git") ∈ listing stock_host w.
Proof. cbv zeta. split_and!; compute_done. Qed.

(** ** The hook *)














(** The service reads back what the hook wrote. *)
Lemma push_then_read :
  (fun f' => (get_push_log stock_host (py "acme") (py "widgets")
                (mkWorld f' (calls widgets_created))).1)
    <$> post_receive 0x12 first_push_env (ref_updates_stdin first_push) (fs widgets_created)
  = Some (Ok (PushLog.mk (py "acme") (py "widgets")
                (unlines [ py "=== PUSH ===";
                           py "time_utc=2024-05-01T12:00:00Z";
                           py "pusher=unknown";
                           py "repo=/srv/app/repos/acme/widgets.git";
                           py "updates:";
                           py "  refs/heads/main 0000000 -> 1a2b3c4";
                           py "  refs/tags/v1.0 0000000 -> 5d6e7f8";
                           [] ])
                None)).
Proof. compute_done. Qed.

(** ** Hook installation, call by call *)

Lemma fresh_file_not_executable (um : N) : executable (N.ldiff 0x1B6 um) = false.
Proof. unfold executable. by rewrite N.ldiff_spec. Qed.

(** C9, as stated, fails: between [write_text] and [chmod] the hook file
    holds the whole script with mode 0o644. *)
Lemma hook_install_not_atomic :
  ¬ hook_never_partial stock_host (py "acme") (py "widgets") widgets_initialised.
Proof.
  intros H. specialize (H 3%nat). cbv zeta in H.
  set (w' := (steps _ 3 _ _).2) in H.
  assert (Hw : fs w' !! hook_path_of (REPO_ROOT stock_host // py "acme" // (py "widgets" ++ py ".git"))
               = Some (File mode_rw_r__r__ hook_content)) by compute_done.
  unfold hook_absent, hook_installed in H. rewrite Hw in H.
  destruct H as [H | (m & Hm & Hx)]; [discriminate H |].
  apply (f_equal (fun o => match o with Some (File m' _) => m' | _ => 0 end)) in Hm.
  cbv beta iota in Hm. subst m. vm_compute in Hx. discriminate Hx.
Qed.

(** C9, as the code has it. The installer is a series of calls, and
    each leaves a state of its own. Started on a repository without the
    hook, the hook is absent until the file is opened; once [open] has
    returned the file is there, empty, with mode [0o666 & ~umask]; once
    [write] has returned it holds the whole script, still with that mode,
    which is not executable; and once [chmod] has returned, that is when
    the installer returns normally, it holds the whole script with mode
    0o755. Nothing is said of an installation that fails. *)
Theorem hook_install_stages (h : Host) (org name : str) (w : World) (k : nat) :
  let repo_dir := REPO_ROOT h // org // (name ++ py ".git") in
  hook_absent (fs w) repo_dir →
  let w' := (steps h k (AtHookMkdir org name) w).2 in
  let fresh := N.ldiff 0x1B6 (umask h) in
  executable fresh = false
  ∧ executable mode_rwxr_xr_x = true
  ∧ match (steps h k (AtHookMkdir org name) w).1 with
    | AtHookMkdir _ _ | AtHookOpen _ _ => hook_absent (fs w') repo_dir
    | AtHookWrite _ _ => fs w' !! hook_path_of repo_dir = Some (File fresh [])
    | AtHookChmod _ _ => fs w' !! hook_path_of repo_dir = Some (File fresh hook_content)
    | Finished (Ok _) =>
        fs w' !! hook_path_of repo_dir = Some (File mode_rwxr_xr_x hook_content)
    | Finished (Raise _) => True
    | _ => False
    end.
Proof.
  intros repo_dir Habsent. unfold hook_absent in *. cbv zeta.
  split; [apply fresh_file_not_executable |]. split; [done |].
  destruct k as [|k]; [done |].
  rewrite steps_S; cbn [step]; unfold advance, mkdir_parents.
  unfold mbind, M_bind, bind, mret, M_ret, ret, raise, logged, get_fs, put_fs.
  cbn [fst snd fs calls]. fold repo_dir. rewrite joinpath_hooks.
  destruct (mkdir_from [] _ (fs w)) as [f1|] eqn:Emk; [| by rewrite steps_finished].
  assert (Hf1 : f1 !! hook_path_of repo_dir = None).
  { rewrite (mkdir_from_other _ _ _ _ _ Emk); [done |].
    right. unfold hook_path_of. rewrite !length_app. simpl. lia. }
  destruct k as [|k]; [done |].
  rewrite steps_S; cbn [step]; unfold advance, open_w.
  unfold mbind, M_bind, bind, mret, M_ret, ret, raise, logged, get_fs, put_fs.
  cbn [fst snd fs calls]. fold repo_dir. rewrite hook_path_of_eq.
  destruct (is_dir f1 _); [| by rewrite steps_finished].
  rewrite Hf1.
  destruct k as [|k].
  { unfold steps. cbn [fst snd fs]. by rewrite lookup_insert_eq. }
  rewrite steps_S; cbn [step]; unfold advance, write_str, write.
  rewrite hook_content_bytes.
  unfold mbind, M_bind, bind, mret, M_ret, ret, raise, logged, get_fs, put_fs.
  cbn [fst snd fs calls]. fold repo_dir.
  rewrite hook_path_of_eq, lookup_insert_eq. cbn [app].
  destruct k as [|k].
  { unfold steps. cbn [fst snd fs]. by rewrite lookup_insert_eq. }
  rewrite steps_S; cbn [step]; unfold advance, chmod.
  unfold mbind, M_bind, bind, mret, M_ret, ret, raise, logged, get_fs, put_fs.
  cbn [fst snd fs calls]. fold repo_dir.
  rewrite hook_path_of_eq, lookup_insert_eq.
  rewrite steps_finished. cbn [fst snd fs]. by rewrite lookup_insert_eq.
Qed.

Lemma hook_install_stages_witness :
  executable (N.ldiff 0x1B6 (umask stock_host)) = false
  ∧ executable mode_rwxr_xr_x = true
  ∧ fs (steps stock_host 3 (AtHookMkdir (py "acme") (py "widgets")) widgets_initialised).2
      !! hook_path_of widgets_dir
    = Some (File (N.ldiff 0x1B6 (umask stock_host)) hook_content).
Proof.
  apply (hook_install_stages stock_host (py "acme") (py "widgets") widgets_initialised 3).
  compute_done.
Defined.

(** ** Two requests for the same identifier *)

Lemma interleave_first (h : Host) (n : nat) (sched : list bool) (a b : pc) (w : World) :
  interleave h (replicate n true ++ sched) a b w =
    interleave h sched (steps h n a w).1 b (steps h n a w).2.
Proof.
  revert a w. induction n as [|n IH]; intros a w; [done |].
  simpl replicate. simpl app. cbn [interleave]. rewrite steps_S.
  destruct (step h a w) as [a' w']. apply IH.
Qed.

Lemma interleave_second (h : Host) (n : nat) (a b : pc) (w : World) :
  interleave h (replicate n false) a b w = (a, (steps h n b w).1, (steps h n b w).2).
Proof.
  revert b w. induction n as [|n IH]; intros b w; [done |].
  simpl replicate. cbn [interleave]. rewrite steps_S.
  destruct (step h b w) as [b' w']. apply IH.
Qed.

Lemma interleave_serial (h : Host) (body : RepoCreate.t) (w : World) :
  interleave h serial_schedule (AtValidate body) (AtValidate body) w =
    let first := create_repo h body w in
    let second := create_repo h body first.2 in
    (Finished first.1, Finished second.1, second.2).
Proof.
  unfold serial_schedule.
  by rewrite interleave_first, interleave_second, !steps_create_repo.
Qed.

(** Once created, the repository directory is there. *)
Lemma create_repo_ok_present (h : Host) (body : RepoCreate.t) (w w' : World) (d : Repo.t) :
  create_repo h body w = (Ok d, w') →
  ∃ org name,
    safe_name (RepoCreate.org body) = Ok org
    ∧ safe_name (RepoCreate.name body) = Ok name
    ∧ is_Some (fs w' !! (REPO_ROOT h // org // (name ++ py ".git"))).
Proof.
  intros H.
  destruct (create_repo_ok_inv _ _ _ _ _ H)
    as (org & name & f1 & f2 & f3 & Horg & Hname & _ & _ & _ & _ & Hmk & Hfs & _).
  exists org, name. split_and!; [done | done |].
  rewrite Hfs. set (repo_dir := REPO_ROOT h // org // (name ++ py ".git")) in *.
  assert (Hlen : (0 < length repo_dir)%nat).
  { subst repo_dir. rewrite (repo_dir_eq h _ _ _ _ Horg Hname), !length_app.
    simpl. lia. }
  rewrite lookup_insert_ne.
  - rewrite joinpath_hooks in Hmk.
    pose proof (mkdir_from_dirs [] _ _ _ (length repo_dir) Hmk) as Hdir.
    rewrite take_app_length in Hdir. simpl in Hdir. rewrite Hdir; [done |].
    rewrite length_app. simpl. lia.
  - unfold hook_path_of. intros Heq. apply (f_equal length) in Heq.
    rewrite length_app in Heq. simpl in Heq. lia.
Qed.

(** C10, as stated, fails: when both requests run the existence check before
    either creates the directory, both return the descriptor. *)
Lemma concurrent_create_two_winners :
  let outcome := interleave stock_host race_schedule
                   (AtValidate acme_widgets) (AtValidate acme_widgets)
                   (booted stock_host) in
  outcome.1 = (Finished (Ok acme_widgets_info), Finished (Ok acme_widgets_info))
  ∧ ¬ one_winner (Ok acme_widgets_info) (Ok acme_widgets_info).
Proof.
  cbv zeta. split; [compute_done |].
  intros [[_ [detail H]] | [_ [detail H]]]; discriminate H.
Qed.

(** C10, as the code has it. The check and the creation are separate calls
    with nothing to exclude another request in between; what holds is the
    serial case: when one request is served to the end and succeeds, the
    next one for the same identifier gets the 409 answer and changes
    nothing. *)
Theorem serial_create_one_winner (h : Host) (body : RepoCreate.t) (w w1 : World) (d : Repo.t) :
  create_repo h body w = (Ok d, w1) →
  interleave h serial_schedule (AtValidate body) (AtValidate body) w
  = (Finished (Ok d),
     Finished (Raise (HTTPException 409 (py "Repo already exists"))), w1)
  ∧ one_winner (Ok d) (Raise (HTTPException 409 (py "Repo already exists"))).
Proof.
  intros H. split.
  - rewrite interleave_serial. cbv zeta. rewrite H. cbn [fst snd].
    destruct (create_repo_ok_present _ _ _ _ _ H) as (org & name & Horg & Hname & Hpresent).
    by rewrite (create_repo_conflict h body w1 org name Horg Hname Hpresent).
  - left. split; by eexists.
Qed.

Lemma serial_create_one_winner_witness :
  interleave stock_host serial_schedule (AtValidate acme_widgets) (AtValidate acme_widgets)
    (booted stock_host)
  = (Finished (Ok acme_widgets_info),
     Finished (Raise (HTTPException 409 (py "Repo already exists"))),
     widgets_created)
  ∧ one_winner (Ok acme_widgets_info) (Raise (HTTPException 409 (py "Repo already exists"))).
Proof.
  apply (serial_create_one_winner stock_host acme_widgets (booted stock_host)).
  compute_done.
Defined.

(** * Further properties *)

(** ** More on the name validator *)

Lemma safe_name_of_valid (s : str) :
  s ≠ [] → Forall (fun c => allow_listed c = true) s →
  ¬ occurs_in [ch_dot; ch_dot] s →
  safe_name s = Ok s.
Proof.
  intros Hne Hall Hdots.
  destruct (safe_name s) as [r | e] eqn:E.
  - apply safe_name_ok_inv in E as [-> _]. by rewrite strip_allow_listed.
  - exfalso. destruct (safe_name_raise_iff s) as [Hraise _].
    rewrite strip_allow_listed in Hraise by done.
    rewrite Forall_forall in Hall.
    destruct Hraise as [H | [H | [H | [H | (ch & Hin & Hch)]]]];
      [rewrite E; by eexists | done | | | done |].
    + by specialize (Hall _ H).
    + by specialize (Hall _ H).
    + specialize (Hall _ Hin). congruence.
Qed.

(** X1. The names [safe_name] can return are exactly its fixed points, and
    these are exactly the non-empty strings over [[A-Za-z0-9._-]] without
    "..": validating a validated name changes nothing. *)
Theorem safe_name_image (s : str) :
  ((∃ raw, safe_name raw = Ok s) ↔ safe_name s = Ok s)
  ∧ (safe_name s = Ok s ↔
       s ≠ [] ∧ Forall (fun c => allow_listed c = true) s
       ∧ ¬ occurs_in [ch_dot; ch_dot] s).
Proof.
  split; split.
  - intros [raw Hraw]. by eapply safe_name_idem.
  - eauto.
  - intros (_ & Hne & _ & _ & Hdots & Hall)%safe_name_ok_inv. done.
  - intros (Hne & Hall & Hdots). by apply safe_name_of_valid.
Qed.

Lemma lstrip_blank (b : str) : blank b → lstrip b = [].
Proof. induction 1 as [|c b Hc Hb IH]; [done |]. simpl. by rewrite Hc. Qed.

Lemma lstrip_blank_app (a s : str) : blank a → lstrip (a ++ s) = lstrip s.
Proof. induction 1 as [|c a Hc Ha IH]; [done |]. simpl. by rewrite Hc. Qed.

Lemma lstrip_app (s t : str) :
  lstrip (s ++ t) = match lstrip s with [] => lstrip t | _ => lstrip s ++ t end.
Proof.
  induction s as [|c s IH]; simpl.
  - by destruct (lstrip t).
  - by destruct (is_space c).
Qed.

Lemma rstrip_blank_app (s b : str) : blank b → rstrip (s ++ b) = rstrip s.
Proof.
  intros Hb. unfold rstrip. rewrite reverse_app, lstrip_blank_app; [done |].
  unfold blank. by rewrite Forall_reverse.
Qed.

Lemma strip_padding (a raw b : str) :
  blank a → blank b → strip (a ++ raw ++ b) = strip raw.
Proof.
  intros Ha Hb. unfold strip. rewrite lstrip_blank_app by done.
  rewrite lstrip_app. destruct (lstrip raw) as [|c s] eqn:E.
  - by rewrite lstrip_blank.
  - by rewrite rstrip_blank_app.
Qed.

(** X2. Whitespace around a name does not count: padding the input with
    any whitespace ([str.isspace]) at either end gives the same answer, be it
    the same name or the same error. *)
Theorem safe_name_padding (a raw b : str) :
  blank a → blank b → safe_name (a ++ raw ++ b) = safe_name raw.
Proof. intros Ha Hb. unfold safe_name. by rewrite strip_padding. Qed.

Lemma safe_name_padding_witness :
  safe_name (py "  " ++ py "acme" ++ [ch_tab; ch_newline]) = safe_name (py "acme").
Proof.
  apply (safe_name_padding (py "  ") (py "acme") [ch_tab; ch_newline]).
  - unfold blank. compute_done.
  - unfold blank. compute_done.
Defined.

(** ** More on storage paths *)

Lemma is_below_app (root rest : path) : rest ≠ [] → is_below root (root ++ rest) = true.
Proof.
  intros Hne. unfold is_below. rewrite take_app_length.
  rewrite bool_decide_eq_true_2 by done. apply bool_decide_eq_true_2.
  rewrite length_app. destruct rest; [done |]. simpl. lia.
Qed.

Lemma path_name_snoc (p : path) (c : str) : path_name (p ++ [c]) = c.
Proof. unfold path_name. by rewrite last_snoc. Qed.

(** X3. Path-traversal safety. Whatever two names [safe_name] accepts, the
    directory the endpoints compute from them lies strictly below the
    storage root, its last component is the name followed by ".git", and
    it is [<root>/<org>/<name>.git] unless the organization is the single
    dot. *)
Theorem repo_dir_below_root (h : Host) (raw_org raw_name org name : str) :
  safe_name raw_org = Ok org → safe_name raw_name = Ok name →
  let repo_dir := REPO_ROOT h // org // (name ++ py ".git") in
  is_below (REPO_ROOT h) repo_dir = true
  ∧ path_name repo_dir = name ++ py ".git"
  ∧ (org ≠ [ch_dot] → repo_dir = REPO_ROOT h ++ [org; name ++ py ".git"]).
Proof.
  intros Horg Hname repo_dir. subst repo_dir.
  rewrite (repo_dir_eq h _ _ _ _ Horg Hname). split_and!.
  - apply is_below_app. by destruct (bool_decide _).
  - by rewrite app_assoc, path_name_snoc.
  - intros Hdot. by rewrite bool_decide_eq_false_2.
Qed.

Lemma repo_dir_below_root_witness :
  is_below (REPO_ROOT stock_host)
    (REPO_ROOT stock_host // py "acme" // (py "widgets" ++ py ".git")) = true
  ∧ path_name (REPO_ROOT stock_host // py "acme" // (py "widgets" ++ py ".git"))
    = py "widgets" ++ py ".git"
  ∧ (py "acme" ≠ [ch_dot] →
     REPO_ROOT stock_host // py "acme" // (py "widgets" ++ py ".git")
     = REPO_ROOT stock_host ++ [py "acme"; py "widgets" ++ py ".git"]).
Proof.
  apply (repo_dir_below_root stock_host (py " acme ") (py "widgets")
           (py "acme") (py "widgets")); compute_done.
Defined.

(** X4. No two identifiers share a directory: if two pairs of accepted
    names lead to the same storage path, they are the same pair. *)
Theorem repo_dir_injective (h : Host) (raw1 raw2 raw3 raw4 org1 name1 org2 name2 : str) :
  safe_name raw1 = Ok org1 → safe_name raw2 = Ok name1 →
  safe_name raw3 = Ok org2 → safe_name raw4 = Ok name2 →
  REPO_ROOT h // org1 // (name1 ++ py ".git")
  = REPO_ROOT h // org2 // (name2 ++ py ".git") →
  org1 = org2 ∧ name1 = name2.
Proof.
  intros Ho1 Hn1 Ho2 Hn2.
  rewrite (repo_dir_eq h _ _ _ _ Ho1 Hn1), (repo_dir_eq h _ _ _ _ Ho2 Hn2).
  intros Heq. apply app_inv_head in Heq.
  repeat case_bool_decide; simplify_eq/=.
  - split; [done |]. by eapply app_inv_tail.
  - split; [done |]. by eapply app_inv_tail.
Qed.

Lemma repo_dir_injective_witness : py "acme" = py "acme" ∧ py "widgets" = py "widgets".
Proof.
  apply (repo_dir_injective stock_host (py "acme") (py "widgets") (py " acme")
           (py "widgets ") (py "acme") (py "widgets") (py "acme") (py "widgets"));
    compute_done.
Defined.

(** ** More on provisioning *)

(** Whatever the outcome, the calls attempted are an initial part of the
    provisioning sequence for the directory of the accepted names. *)
Lemma create_repo_calls (h : Host) (body : RepoCreate.t) (w : World) :
  calls (create_repo h body w).2 = calls w
  ∨ ∃ org name k,
      safe_name (RepoCreate.org body) = Ok org
      ∧ safe_name (RepoCreate.name body) = Ok name
      ∧ calls (create_repo h body w).2
        = calls w ++ take k (provisioning_calls (REPO_ROOT h // org // (name ++ py ".git"))).
Proof.
  destruct (safe_name (RepoCreate.org body)) as [org|e1] eqn:Eorg.
  2: { destruct (create_repo_invalid h body w e1 (or_introl Eorg)) as (msg & _ & ->).
       by left. }
  destruct (safe_name (RepoCreate.name body)) as [name|e2] eqn:Ename.
  2: { destruct (create_repo_invalid h body w e2) as (msg & _ & ->).
       { right. split; [by eexists | done]. }
       by left. }
  rewrite (create_repo_unfold h body org name w Eorg Ename). cbv zeta.
  set (repo_dir := REPO_ROOT h // org // (name ++ py ".git")).
  destruct (fs w !! repo_dir) as [x|]; [by left |].
  destruct (exists_reraises h && stat_too_long [] repo_dir (fs w)); [by left |].
  right. exists org, name.
  destruct (mkdir_from [] (path_parent repo_dir) (fs w)) as [f1|];
    [| by exists 1%nat].
  destruct (git_init_bare h repo_dir f1) as [[] f2]; [| by exists 2%nat].
  destruct (mkdir_from [] (repo_dir // py "hooks") f2) as [f3|]; [| by exists 3%nat].
  destruct (f3 !! hook_path_of repo_dir) as [[|m d]|];
    [by exists 4%nat | by exists 6%nat..].
Qed.

Lemma provisioning_calls_below (root rest : path) (c : str) :
  Forall (fun k => root `prefix_of` call_path k)
    (provisioning_calls (root ++ rest ++ [c])).
Proof.
  unfold provisioning_calls, hook_path_of. rewrite joinpath_hooks.
  rewrite (app_assoc root rest [c]), path_parent_snoc_of.
  rewrite <- !app_assoc.
  repeat constructor; simpl; by apply prefix_app_r.
Qed.

(** X5. [create_repo] keeps to the storage root: every mutating call it
    attempts, on any input and whatever the outcome, is on the storage root
    or a path below it. *)
Theorem create_repo_calls_below_root (h : Host) (body : RepoCreate.t) (w : World) :
  ∃ cs, calls (create_repo h body w).2 = calls w ++ cs
        ∧ Forall (fun c => REPO_ROOT h `prefix_of` call_path c) cs.
Proof.
  destruct (create_repo_calls h body w) as [-> | (org & name & k & Horg & Hname & ->)].
  - exists []. by rewrite app_nil_r.
  - eexists. split; [done |]. apply Forall_take.
    rewrite (repo_dir_eq h _ _ _ _ Horg Hname).
    apply provisioning_calls_below.
Qed.

(** X6. The calls of [create_repo] come in one fixed order: parent
    directory, [git init], hooks directory, then open, write and [chmod] of
    the hook. Whatever the outcome, the calls attempted are an initial part
    of that sequence for the directory of the accepted names, and a
    descriptor is returned only after all six. *)
Theorem create_repo_call_order (h : Host) (body : RepoCreate.t) (w : World) :
  (calls (create_repo h body w).2 = calls w
   ∨ ∃ org name k,
       safe_name (RepoCreate.org body) = Ok org
       ∧ safe_name (RepoCreate.name body) = Ok name
       ∧ calls (create_repo h body w).2
         = calls w ++ take k (provisioning_calls (REPO_ROOT h // org // (name ++ py ".git"))))
  ∧ (∀ d, (create_repo h body w).1 = Ok d →
       calls (create_repo h body w).2
       = calls w ++ provisioning_calls
                      (REPO_ROOT h // Repo.org d // (Repo.name d ++ py ".git"))).
Proof.
  split; [apply create_repo_calls |].
  intros d Hd. destruct (create_repo h body w) as [r w'] eqn:E. simpl in Hd. subst r.
  destruct (create_repo_ok_inv _ _ _ _ _ E)
    as (org & name & f1 & f2 & f3 & _ & _ & -> & _ & _ & _ & _ & _ & Hcalls).
  done.
Qed.

(** X7. When [create_repo] refuses. It answers 400 exactly when
    [safe_name] rejects the organization or the name, and 409 exactly when
    both are accepted and something, file or directory, already is at the
    repository path. *)
Theorem create_repo_refusals (h : Host) (body : RepoCreate.t) (w : World) :
  ((∃ detail, (create_repo h body w).1 = Raise (HTTPException 400 detail))
   ↔ is_Raise (safe_name (RepoCreate.org body))
     ∨ is_Raise (safe_name (RepoCreate.name body)))
  ∧ ((∃ detail, (create_repo h body w).1 = Raise (HTTPException 409 detail))
     ↔ ∃ org name,
         safe_name (RepoCreate.org body) = Ok org
         ∧ safe_name (RepoCreate.name body) = Ok name
         ∧ is_Some (fs w !! (REPO_ROOT h // org // (name ++ py ".git")))).
Proof.
  destruct (safe_name (RepoCreate.org body)) as [org|e1] eqn:Eorg.
  2: { destruct (create_repo_invalid h body w e1 (or_introl Eorg)) as (msg & -> & ->).
       split; split.
       - intros _. left. by eexists.
       - intros _. by eexists.
       - intros [detail [=]].
       - intros (o & n & [=] & _). }
  destruct (safe_name (RepoCreate.name body)) as [name|e2] eqn:Ename.
  2: { destruct (create_repo_invalid h body w e2) as (msg & -> & ->).
       { right. split; [by eexists | done]. }
       split; split.
       - intros _. right. by eexists.
       - intros _. by eexists.
       - intros [detail [=]].
       - intros (o & n & _ & [=] & _). }
  destruct (decide (is_Some (fs w !! (REPO_ROOT h // org // (name ++ py ".git")))))
    as [Hpresent | Hfree].
  - rewrite (create_repo_conflict h body w org name Eorg Ename Hpresent).
    split; split.
    + intros [detail [=]].
    + intros [[e [=]] | [e [=]]].
    + intros _. by exists org, name.
    + intros _. by eexists.
  - assert (Hnot : ∀ status detail,
              (create_repo h body w).1 ≠ Raise (HTTPException status detail)).
    { intros status detail.
      rewrite (create_repo_unfold h body org name w Eorg Ename). cbv zeta.
      destruct (fs w !! (REPO_ROOT h // org // (name ++ py ".git"))) as [x|];
        [destruct Hfree; by eexists |].
      by repeat case_match. }
    split; split.
    + intros [detail H]. by destruct (Hnot _ _ H).
    + intros [[e [=]] | [e [=]]].
    + intros [detail H]. by destruct (Hnot _ _ H).
    + intros (o & n & [= <-] & [= <-] & Hpresent). done.
Qed.

(** ** How the endpoints compose *)

Lemma rfind_app (c : N) (s t : str) (i : nat) :
  rfind c t = Some i → rfind c (s ++ t) = Some (length s + i)%nat.
Proof.
  intros Ht. induction s as [|d s IH]; simpl; [done |]. by rewrite IH.
Qed.

(** [stem] undoes the ".git" that the endpoints append. *)
Lemma path_stem_git (p : path) (name : str) :
  name ≠ [] → path_stem (p ++ [name ++ py ".git"]) = name.
Proof.
  intros Hne. unfold path_stem. rewrite path_name_snoc.
  rewrite (rfind_app ch_dot name (py ".git") 0%nat eq_refl), Nat.add_0_r.
  rewrite bool_decide_eq_true_2.
  - by rewrite take_app_length.
  - rewrite length_app. destruct name; [done |].
    change (length (py ".git")) with 4%nat. simpl. lia.
Qed.

Lemma ends_with_app (suf s : str) : ends_with suf (s ++ suf) = true.
Proof.
  unfold ends_with. rewrite reverse_app. apply starts_with_spec. eauto.
Qed.

(** X8. Listing finds what creation made. When [create_repo] returns a
    descriptor whose organization is not the single dot, [list_repos] on
    the resulting disk returns that very descriptor: organization and name
    read back from the path are the accepted ones. *)
Theorem create_then_list (h : Host) (body : RepoCreate.t) (w w' : World) (d : Repo.t) :
  create_repo h body w = (Ok d, w') →
  Repo.org d ≠ [ch_dot] →
  d ∈ listing h w'.
Proof.
  intros Hcreate Hdot.
  destruct (create_repo_ok_present _ _ _ _ _ Hcreate)
    as (org & name & Horg & Hname & Hpresent).
  destruct (create_repo_ok_inv _ _ _ _ _ Hcreate)
    as (org' & name' & f1 & f2 & f3 & Horg' & Hname' & Hd & _).
  rewrite Horg in Horg'. rewrite Hname in Hname'.
  injection Horg' as <-. injection Hname' as <-.
  rewrite Hd in Hdot |- *. cbn [Repo.org] in Hdot. clear Hd Hcreate.
  pose proof (safe_name_ok_inv _ _ Hname) as (_ & Hne & _).
  rewrite (repo_dir_two_level h _ _ _ _ Horg Hname Hdot) in *.
  apply listing_elem. eexists. split_and!; [exact Hpresent | | |].
  - by apply is_below_app.
  - change [org; name ++ py ".git"] with ([org] ++ [name ++ py ".git"]).
    rewrite app_assoc, path_name_snoc. apply ends_with_app.
  - change [org; name ++ py ".git"] with ([org] ++ [name ++ py ".git"]).
    rewrite app_assoc, path_stem_git, path_parent_snoc_of, path_name_snoc by done.
    done.
Qed.

Lemma create_then_list_witness : acme_widgets_info ∈ listing stock_host widgets_created.
Proof.
  apply (create_then_list stock_host acme_widgets (booted stock_host)); compute_done.
Defined.

(** X9. The push log of a repository just created can be asked for. After
    [create_repo] has returned a descriptor, [get_push_log] with the
    descriptor's organization and name answers neither 400 nor 404, and when
    no [push.log] is there yet it answers with the empty text and the note. *)
Theorem create_then_push_log (h : Host) (body : RepoCreate.t) (w w' : World) (d : Repo.t) :
  create_repo h body w = (Ok d, w') →
  (∀ status detail,
     (get_push_log h (Repo.org d) (Repo.name d) w').1
     ≠ Raise (HTTPException status detail))
  ∧ (fs w' !! (REPO_ROOT h // Repo.org d // (Repo.name d ++ py ".git") ++ [py "push.log"])
     = None →
     get_push_log h (Repo.org d) (Repo.name d) w'
     = (Ok (PushLog.mk (Repo.org d) (Repo.name d) []
              (Some (py "No pushes logged yet"))), w')).
Proof.
  intros Hcreate.
  destruct (create_repo_ok_present _ _ _ _ _ Hcreate)
    as (org & name & Horg & Hname & [x Hpresent]).
  destruct (create_repo_ok_inv _ _ _ _ _ Hcreate)
    as (org' & name' & f1 & f2 & f3 & Horg' & Hname' & Hd & _).
  rewrite Horg in Horg'. rewrite Hname in Hname'.
  injection Horg' as <-. injection Hname' as <-.
  pose proof (λ k, create_repo_ok_dirs _ _ _ _ _ _ _ k Hcreate Horg Hname) as Hdirs.
  rewrite Hd. cbn [Repo.org Repo.name]. clear Hd Hcreate.
  rewrite (get_push_log_unfold h org name org name w'
             (safe_name_idem _ _ Horg) (safe_name_idem _ _ Hname)).
  cbv zeta. rewrite Hpresent. split.
  - intros status detail. by repeat case_match.
  - intros Hlog. rewrite Hlog.
    rewrite (stat_too_long_last [] _ (py "push.log") (fs w') Hdirs Hlog).
    replace (too_long (py "push.log")) with false by (symmetry; compute_done).
    by rewrite andb_false_r.
Qed.

Lemma create_then_push_log_witness :
  get_push_log stock_host (py "acme") (py "widgets") widgets_created
  = (Ok (PushLog.mk (py "acme") (py "widgets") [] (Some (py "No pushes logged yet"))),
     widgets_created).
Proof.
  apply (proj2 (create_then_push_log stock_host acme_widgets (booted stock_host)
                  widgets_created acme_widgets_info ltac:(compute_done))).
  compute_done.
Defined.

(** ** More on the hook installer *)

(** A file in the way stops the creation of directories. *)
Lemma mkdir_from_blocked (done_ todo : path) (f : gmap path node) (k : nat) (m : N)
    (d : list N) :
  (0 < k ≤ length todo)%nat →
  f !! (done_ ++ take k todo) = Some (File m d) →
  mkdir_from done_ todo f = None.
Proof.
  revert done_ f k. induction todo as [|c todo IH]; intros done_ f k Hk Hfile; simpl in *.
  - lia.
  - destruct k as [|[|k]]; [lia | |].
    + simpl in Hfile. rewrite take_0 in Hfile. by rewrite Hfile.
    + simpl in Hfile. rewrite (cons_middle c), app_assoc in Hfile.
      change (?x :: take k ?l) with (take (S k) (x :: l)) in Hfile.
      destruct (f !! (done_ ++ [c])) as [[|m' d']|] eqn:E; [| done |].
      * apply (IH _ _ (S k)); [simpl; lia | done].
      * destruct (too_long c); [done |].
        apply (IH _ _ (S k)); [simpl; lia |].
        rewrite lookup_insert_ne; [done |]. intros Heq.
        apply (f_equal length) in Heq. rewrite !length_app, length_take in Heq.
        lia.
Qed.

Lemma mkdir_from_id (done_ todo : path) (f : gmap path node) :
  (∀ k, (0 < k ≤ length todo)%nat → f !! (done_ ++ take k todo) = Some Dir) →
  mkdir_from done_ todo f = Some f.
Proof.
  revert done_. induction todo as [|c todo IH]; intros done_ Hdirs; simpl; [done |].
  pose proof (Hdirs 1%nat) as H1. simpl in H1. rewrite take_0 in H1.
  rewrite H1 by lia. apply IH. intros k Hk.
  specialize (Hdirs (S k)). simpl in Hdirs.
  rewrite <- app_assoc. apply Hdirs. lia.
Qed.

Lemma hook_path_longer (p : path) (k : nat) :
  hook_path_of p ≠ take k (p ++ [py "hooks"]).
Proof.
  unfold hook_path_of. intros Heq. apply (f_equal length) in Heq.
  rewrite length_take, !length_app in Heq. simpl in Heq. lia.
Qed.

(** X10. The installer on its own, for any repository directory. When
    it returns normally, no file stood where the hooks directory or one of
    its ancestors should be and the hook path was not a directory; the hooks
    directory is there, and the whole script is at the hook path with mode
    0o755, in the place of whatever file was there. Whatever the outcome,
    nothing else that was on disk is changed or removed. *)
Theorem write_post_receive_hook_spec (h : Host) (repo_dir : path) (w : World) :
  let hooks_dir := repo_dir ++ [py "hooks"] in
  let hook := hook_path_of repo_dir in
  let r := (write_post_receive_hook h repo_dir w).1 in
  let w' := (write_post_receive_hook h repo_dir w).2 in
  (r = Ok tt →
     (∀ k m d, (0 < k)%nat → fs w !! take k hooks_dir ≠ Some (File m d))
     ∧ fs w !! hook ≠ Some Dir
     ∧ fs w' !! hooks_dir = Some Dir
     ∧ fs w' !! hook = Some (File mode_rwxr_xr_x hook_content))
  ∧ (∀ q n, q ≠ hook → fs w !! q = Some n → fs w' !! q = Some n).
Proof.
  intros hooks_dir hook r w'. subst r w'.
  rewrite write_post_receive_hook_unfold. fold hooks_dir hook.
  destruct (mkdir_from [] hooks_dir (fs w)) as [f1|] eqn:Emk.
  2: { split; [done |]. intros q n _ Hq. cbn [snd fs]. by apply mkdir_stops_keeps. }
  assert (Hsame : f1 !! hook = fs w !! hook).
  { apply (mkdir_from_other _ _ _ _ _ Emk). right.
    subst hook hooks_dir. unfold hook_path_of. rewrite !length_app. simpl. lia. }
  assert (Hnofile : ∀ k m d, (0 < k)%nat → fs w !! take k hooks_dir ≠ Some (File m d)).
  { intros k m d Hk Hfile.
    assert (mkdir_from [] hooks_dir (fs w) = None); [| congruence].
    destruct (decide (k ≤ length hooks_dir)%nat).
    - by apply (mkdir_from_blocked [] hooks_dir (fs w) k m d).
    - apply (mkdir_from_blocked [] hooks_dir (fs w) (length hooks_dir) m d).
      + subst hooks_dir. rewrite length_app. simpl. lia.
      + simpl. rewrite firstn_all. by rewrite take_ge in Hfile by lia. }
  assert (Hdir : f1 !! hooks_dir = Some Dir).
  { pose proof (mkdir_from_dirs [] _ _ _ (length hooks_dir) Emk) as H.
    rewrite firstn_all in H. apply H. subst hooks_dir. rewrite length_app. simpl. lia. }
  assert (Hne : hooks_dir ≠ hook).
  { subst hooks_dir hook. unfold hook_path_of. intros Heq.
    apply (f_equal length) in Heq. rewrite !length_app in Heq. simpl in Heq. lia. }
  rewrite <- Hsame.
  destruct (f1 !! hook) as [[|m d]|] eqn:Ehook; cbn [fst snd fs]; split.
  - done.
  - intros q n _ Hq. by eapply mkdir_from_keeps.
  - intros _. split_and!; [done | done | by rewrite lookup_insert_ne |
                           by rewrite lookup_insert_eq].
  - intros q n Hq Hn. rewrite lookup_insert_ne by done. by eapply mkdir_from_keeps.
  - intros _. split_and!; [done | done | by rewrite lookup_insert_ne |
                           by rewrite lookup_insert_eq].
  - intros q n Hq Hn. rewrite lookup_insert_ne by done. by eapply mkdir_from_keeps.
Qed.

(** X11. Installing the hook again changes nothing on disk: after a
    successful installation a second one succeeds and leaves the same
    filesystem. *)
Theorem write_post_receive_hook_again (h : Host) (repo_dir : path) (w w1 : World) :
  write_post_receive_hook h repo_dir w = (Ok tt, w1) →
  (write_post_receive_hook h repo_dir w1).1 = Ok tt
  ∧ fs (write_post_receive_hook h repo_dir w1).2 = fs w1.
Proof.
  rewrite !write_post_receive_hook_unfold.
  destruct (mkdir_from [] _ (fs w)) as [f1|] eqn:Emk; [| done].
  set (hook := hook_path_of repo_dir).
  intros H1.
  assert (Hw1 : fs w1 = <[hook := File mode_rwxr_xr_x hook_content]> f1).
  { destruct (f1 !! hook) as [[|m d]|]; by simplify_eq. }
  clear H1.
  assert (Hid : mkdir_from [] (repo_dir ++ [py "hooks"]) (fs w1) = Some (fs w1)).
  { apply mkdir_from_id. intros k Hk. rewrite Hw1, lookup_insert_ne.
    - by apply (mkdir_from_dirs [] _ _ _ k Emk).
    - apply hook_path_longer. }
  rewrite Hid. destruct w1 as [g cs]. simpl in Hw1 |- *. subst g.
  rewrite lookup_insert_eq. simpl. by rewrite insert_insert_eq.
Qed.

Lemma write_post_receive_hook_again_witness :
  (write_post_receive_hook stock_host widgets_dir widgets_created).1 = Ok tt
  ∧ fs (write_post_receive_hook stock_host widgets_dir widgets_created).2
    = fs widgets_created.
Proof.
  apply (write_post_receive_hook_again stock_host widgets_dir widgets_initialised).
  compute_done.
Defined.

(** ** The reading endpoints *)

(** X13. The two GET endpoints only read: whatever the input and whatever
    they answer, the filesystem is the same afterwards and no mutating call
    was attempted. *)
Theorem reading_endpoints_read_only (h : Host) (org name : str) (w : World) :
  (list_repos h w).2 = w ∧ (get_push_log h org name w).2 = w.
Proof.
  split; [done |].
  unfold get_push_log. unfold_calls. run_monad.
  repeat (case_match; simplify_eq/=; try done).
Qed.

(** ** More on the hook *)












